(** * The state/transaction core of the editor: a shallow embedding

    The development follows the two source files of the state package.
    The first part embeds the file that defines [StateField], [Plugin],
    [Configuration], [EditorState], [Range], [Selection], [Meta],
    [Transaction] and [Change]; the module [Facets] at the end embeds the
    facet-era [EditorState] of [state/src/state.ts].

    Conventions.
    - JavaScript numbers that hold document offsets are integers, modelled
      by [Z]; a JavaScript string is a sequence of code units, modelled by
      [string] with one character per code unit, and [strlen] is its
      [.length].
    - A thrown exception is a value of [exn]; code that may throw returns
      a [result].
    - An object used as a string-keyed table (the field slots stored on an
      [EditorState], a [Meta] table) is a [gmap string _]. *)

From Stdlib Require Import ZArith String Ascii List Bool Lia.
From stdpp Require Import base option list gmap strings pretty.

Local Open Scope string_scope.
Local Open Scope list_scope.
Local Open Scope Z_scope.

(** [s.length] of a JavaScript string. *)
Definition strlen (s : string) : Z := Z.of_nat (String.length s).

(** ** Exceptions *)

(** The two exception classes the sources throw: the generic [Error]
    (raised by the [Configuration] constructor) and [RangeError]. *)
Inductive exn : Type :=
  | Error (message : string)
  | RangeError (message : string).

Inductive result (A : Type) : Type :=
  | Ok (a : A)
  | Throw (e : exn).
Arguments Ok {A} a.
Arguments Throw {A} e.

Definition bind {A B : Type} (r : result A) (k : A -> result B) : result B :=
  match r with
  | Ok a => k a
  | Throw e => Throw e
  end.

Definition succeeds {A : Type} (r : result A) : Prop := exists a, r = Ok a.

(** ** The document collaborator *)

Module Text.

(** Modelled from the spec: the class [Text] of the doc package
    ([../../doc/src/text]) is not part of the sources at hand.  The spec
    asks of it [length], [slice(from,to) -> string] and
    [replace(from,to,text) -> Document] over "an opaque immutable
    sequence type"; the model is the sequence of code units itself.
    [slice] and [replace] are meant for [0 <= from <= to <= length];
    outside of that they clamp. *)
Definition t : Type := string.

Definition create (s : string) : t := s.

Definition length (d : t) : Z := strlen d.

Definition slice (d : t) (from to : Z) : string :=
  substring (Z.to_nat from) (Z.to_nat to - Z.to_nat from) d.

Definition replace (d : t) (from to : Z) (text : string) : t :=
  substring 0 (Z.to_nat from) d
    +:+ text
    +:+ substring (Z.to_nat to) (String.length d - Z.to_nat to) d.

End Text.

(** ** Change *)

Module Change.

Record t : Type := mk { from : Z; to : Z; text : string }.

Definition invert (c : t) (doc : Text.t) : t :=
  mk (from c) (from c + strlen (text c)) (Text.slice doc (from c) (to c)).

(** [mapPos(pos, bias = 1)]; callers that leave [bias] out use
    [mapPos_default]. *)
Definition mapPos (c : t) (pos bias : Z) : Z :=
  if (pos <? from c) || ((bias <? 0) && (pos =? from c)) then pos
  else if pos >? to c then pos + strlen (text c) - (to c - from c)
  else
    let side :=
      if from c =? to c then bias
      else if pos =? from c then -1
      else if pos =? to c then 1
      else bias in
    from c + (if side <? 0 then 0 else strlen (text c)).

Definition mapPos_default (c : t) (pos : Z) : Z := mapPos c pos 1.

Definition apply (c : t) (doc : Text.t) : Text.t :=
  Text.replace doc (from c) (to c) (text c).

(** A position lies outside the replaced half-open interval
    [[from, to)]. *)
Definition outside (c : t) (pos : Z) : Prop := pos < from c \/ to c <= pos.

(** The side a position inside or on the boundary of the replaced
    interval is resolved to, case by case. *)
Definition resolves_side (c : t) (pos bias side : Z) : Prop :=
  (from c = to c -> side = bias)
  /\ (from c <> to c -> pos = from c -> side = -1)
  /\ (from c <> to c -> pos <> from c -> pos = to c -> side = 1)
  /\ (from c <> to c -> pos <> from c -> pos <> to c -> side = bias).

(** The change addresses an interval of the given document. *)
Definition valid (c : t) (doc : Text.t) : Prop :=
  0 <= from c /\ from c <= to c /\ to c <= Text.length doc.

End Change.

(** ** Range and Selection *)

Module Range.

Record t : Type := mk { anchor : Z; head : Z }.

(** [new Range(anchor)]: [head] defaults to [anchor]. *)
Definition cursor (anchor : Z) : t := mk anchor anchor.

Definition from (r : t) : Z := Z.min (anchor r) (head r).
Definition to (r : t) : Z := Z.max (anchor r) (head r).
Definition empty (r : t) : bool := anchor r =? head r.

Definition map (r : t) (change : Change.t) : t :=
  let anchor' := Change.mapPos_default change (anchor r) in
  let head' := Change.mapPos_default change (head r) in
  if (anchor' =? anchor r) && (head' =? head r) then r
  else mk anchor' head'.

Definition eq (r other : t) : bool :=
  (anchor r =? anchor other) && (head r =? head other).

End Range.

Module Selection.

Record t : Type := mk { ranges : list Range.t }.

Definition map (s : t) (change : Change.t) : t :=
  mk (List.map (fun r => Range.map r change) (ranges s)).

(** The loop of [eq], run over both arrays at once; it is entered only
    when the lengths agree. *)
Fixpoint eq_from (rs others : list Range.t) : bool :=
  match rs, others with
  | r :: rs', o :: others' =>
      if negb (Range.eq r o) then false else eq_from rs' others'
  | _, _ => true
  end.

Definition eq (s other : t) : bool :=
  if negb (Nat.eqb (List.length (ranges s)) (List.length (ranges other)))
  then false
  else eq_from (ranges s) (ranges other).

(** [ranges[0]]; [None] stands for [undefined]. *)
Definition primary (s : t) : option Range.t := List.head (ranges s).

Definition default : t := mk [Range.cursor 0].

End Selection.

(** ** Untyped values *)

#[local] Set Warnings "-register-all".

(** Values of TypeScript type [any]: field values, metadata values and
    plugin payloads.  [undefined] is also what reading a missing property
    yields; [func] is a function or class object, known by its name. *)
Inductive any : Type :=
  | undefined
  | null
  | boolean (b : bool)
  | number (n : Z)
  | str (s : string)
  | array (items : list any)
  | object (props : list (string * any))
  | func (name : string).

(** JavaScript truthiness, as used by [x || y]. *)
Definition truthy (v : any) : bool :=
  match v with
  | undefined | null => false
  | boolean b => b
  | number n => negb (n =? 0)
  | str s => negb (String.eqb s "")
  | array _ | object _ | func _ => true
  end.

(** [o[key]] on a string-keyed table. *)
Definition property (o : gmap string any) (key : string) : any :=
  default undefined (o !! key).

(** [v[key]] on any value: only objects carry properties of their own
    here; the first binding of a key is the one read. *)
Fixpoint lookup_property (props : list (string * any)) (key : string) : any :=
  match props with
  | [] => undefined
  | (k, v) :: rest => if String.eqb k key then v else lookup_property rest key
  end.

Definition get_property (v : any) (key : string) : any :=
  match v with
  | object props => lookup_property props key
  | _ => undefined
  end.

(** [typeof v == "string"]. *)
Definition is_string (v : any) : bool :=
  match v with
  | str _ => true
  | _ => false
  end.

(** ** What a field callback sees *)

(** [StateField.init] and [StateField.apply] receive an [EditorState] and
    a [Transaction].  A field is itself reachable from a state through its
    configuration, so the callbacks are typed over the parts of the two
    objects that are public: document, selection and the field slots for
    a state, and the transaction's own members with its start state seen
    the same way.  [slots] is the state object read at a field's key. *)
Module StateView.

Record t : Type := mk {
  doc : Text.t;
  selection : Selection.t;
  slots : gmap string any
}.

End StateView.

Module TransactionView.

Record t : Type := mk {
  startState : StateView.t;
  changes : list Change.t;
  docs : list Text.t;
  selection : Selection.t;
  meta : gmap string any;
  flags : Z
}.

End TransactionView.

(** ** Unique names *)

(** [prefix + (i ? "_" + i : "")]. *)
Definition candidate (prefix : string) (i : nat) : string :=
  prefix +:+ match i with
             | O => ""
             | S _ => "_" +:+ pretty i
             end.

(** The loop of [unique] from counter [i] on, over a registry of the
    names handed out so far.  The source loops until a candidate is free;
    [fuel] counts the rounds left after this one, and [unique] grants one
    per registered name, which is never used up ([unique_is_fresh]). *)
Fixpoint unique_from (fuel i : nat) (prefix : string)
    (names : gmap string string) : string * gmap string string :=
  let name := candidate prefix i in
  match names !! name with
  | None => (name, <[name := name]> names)
  | Some _ =>
      match fuel with
      | O => (name, names)
      | S fuel' => unique_from fuel' (S i) prefix names
      end
  end.

Definition unique (prefix : string) (names : gmap string string)
    : string * gmap string string :=
  unique_from (size names) 0 prefix names.

(** ** StateField, Plugin, Configuration *)

Module StateField.

(** [key] is drawn by the constructor from the global registry
    [fieldNames] through [unique], which never hands out a name twice:
    two field objects are the same object exactly when their keys are
    equal, and [same] is the identity test [==] on fields. *)
Record t : Type := mk {
  key : string;
  init : StateView.t -> any;
  apply : TransactionView.t -> any -> StateView.t -> any
}.

Definition same (f g : t) : bool := String.eqb (key f) (key g).

(** The constructor's argument; [debugName] defaults to "field". *)
Record spec : Type := mkSpec {
  spec_init : StateView.t -> any;
  spec_apply : TransactionView.t -> any -> StateView.t -> any;
  spec_debugName : option string
}.

(** The constructor, over the registry [fieldNames]. *)
Definition new (s : spec) (fieldNames : gmap string string)
    : t * gmap string string :=
  let (key, fieldNames') :=
    unique ("$" +:+ default "field" (spec_debugName s)) fieldNames in
  (mk key (spec_init s) (spec_apply s), fieldNames').

End StateField.

Module Plugin.

Record spec : Type := mkSpec {
  spec_state : option StateField.t;
  spec_config : any;
  spec_props : any
}.

Record t : Type := mk {
  config : any;
  stateField : option StateField.t;
  props : any
}.

Definition new (s : spec) : t :=
  mk (spec_config s)
     (spec_state s)
     (if truthy (spec_props s) then spec_props s else object []).

End Plugin.

Module Configuration.

Record t : Type := mk {
  plugins : list Plugin.t;
  fields : list StateField.t
}.

(** [fields.indexOf(field)], from index [i] on. *)
Fixpoint indexOf_from (i : Z) (fields : list StateField.t)
    (field : StateField.t) : Z :=
  match fields with
  | [] => -1
  | f :: rest =>
      if StateField.same f field then i
      else indexOf_from (i + 1) rest field
  end.

Definition indexOf := indexOf_from 0.

Definition duplicate_message (field : StateField.t) : string :=
  "A state field (" +:+ StateField.key field
    +:+ ") can only be added to a state once".

(** The constructor's loop over [plugins], with the fields pushed so
    far. *)
Fixpoint collect (plugins : list Plugin.t) (fields : list StateField.t)
    : result (list StateField.t) :=
  match plugins with
  | [] => Ok fields
  | plugin :: rest =>
      match Plugin.stateField plugin with
      | None => collect rest fields
      | Some field =>
          if indexOf fields field >? -1
          then Throw (Error (duplicate_message field))
          else collect rest (fields ++ [field])
      end
  end.

Definition new (plugins : list Plugin.t) : result t :=
  bind (collect plugins []) (fun fields => Ok (mk plugins fields)).

End Configuration.

(** ** EditorState *)

Module EditorState.

Record t : Type := mk {
  config : Configuration.t;
  doc : Text.t;
  selection : Selection.t;
  slots : gmap string any
}.

(** The constructor; [selection] defaults to [Selection.default]. *)
Definition new (config : Configuration.t) (doc : Text.t)
    (selection : option Selection.t) : t :=
  mk config doc (default Selection.default selection) ∅.

Definition view (s : t) : StateView.t :=
  StateView.mk (doc s) (selection s) (slots s).

(** [(state as any)[key] = value]. *)
Definition set (s : t) (key : string) (value : any) : t :=
  mk (config s) (doc s) (selection s) (<[key := value]> (slots s)).

Definition getField (s : t) (field : StateField.t) : any :=
  property (slots s) (StateField.key field).

Fixpoint find_plugin (plugins : list Plugin.t) (field : StateField.t)
    : option Plugin.t :=
  match plugins with
  | [] => None
  | plugin :: rest =>
      match Plugin.stateField plugin with
      | Some f =>
          if StateField.same f field then Some plugin
          else find_plugin rest field
      | None => find_plugin rest field
      end
  end.

Definition getPluginWithField (s : t) (field : StateField.t)
    : option Plugin.t :=
  find_plugin (Configuration.plugins (config s)) field.

(** [config.doc] is a string or a [Text]. *)
Inductive docSource : Type :=
  | fromString (s : string)
  | fromText (d : Text.t).

Record editorStateConfig : Type := mkConfig {
  cfg_doc : option docSource;
  cfg_selection : option Selection.t;
  cfg_plugins : option (list Plugin.t)
}.

(** The initialisation loop of [create]: each field's [init] sees the
    state with the slots of the fields before it already filled. *)
Fixpoint init_fields (fields : list StateField.t) (state : t) : t :=
  match fields with
  | [] => state
  | field :: rest =>
      init_fields rest
        (set state (StateField.key field)
             (StateField.init field (view state)))
  end.

Definition create (cfg : editorStateConfig) : result t :=
  let doc :=
    match cfg_doc cfg with
    | Some (fromText d) => d
    | Some (fromString s) => Text.create s
    | None => Text.create ""
    end in
  bind (Configuration.new (default [] (cfg_plugins cfg))) (fun config =>
    let state :=
      new config doc (Some (default Selection.default (cfg_selection cfg)))
    in
    Ok (init_fields (Configuration.fields config) state)).

End EditorState.

(** ** Meta and MetaSlot *)

Module Meta.

(** The own properties of a [Meta] object; [new Meta(from)] copies every
    entry of [from] (the loop [for (let prop in from)] visits the
    enumerable properties, which are the own ones). *)
Definition new (from : option (gmap string any)) : gmap string any :=
  match from with
  | Some table => table
  | None => ∅
  end.

(** The class itself, which [Meta.prototype] holds as [constructor]. *)
Definition class : any := func "Meta".

(** [meta[key]]: an own property if there is one, else the property of
    [Meta.prototype].  [Meta.prototype["__proto__"] = null] cuts the
    prototype off from [Object.prototype], so the one property an
    instance inherits is the prototype's own [constructor]. *)
Definition get (table : gmap string any) (key : string) : any :=
  match table !! key with
  | Some value => value
  | None => if String.eqb key "constructor" then class else undefined
  end.

End Meta.

Module MetaSlot.

Record t : Type := mk { name : string }.

(** The constructor, over the registry [metaSlotNames]; [debugName]
    defaults to "meta". *)
Definition new (debugName : option string) (metaSlotNames : gmap string string)
    : t * gmap string string :=
  let (name, metaSlotNames') := unique (default "meta" debugName) metaSlotNames in
  (mk name, metaSlotNames').

(** The three predefined slots; each is the first to ask [unique] for
    its name, which it therefore gets unchanged. *)
Definition time : t := mk "time".
Definition addToHistory : t := mk "addToHistory".
Definition rebased : t := mk "rebased".

End MetaSlot.

(** ** Transaction *)

Module Transaction.

Definition FLAG_SELECTION_SET : Z := 1.
Definition FLAG_SCROLL_INTO_VIEW : Z := 2.

Record t : Type := mk {
  startState : EditorState.t;
  changes : list Change.t;
  docs : list Text.t;
  selection : Selection.t;
  meta : gmap string any;
  flags : Z
}.

(** [Transaction.start(state, time)]; the caller supplies the clock
    reading that [time] defaults to. *)
Definition start (state : EditorState.t) (time : Z) : t :=
  let meta := <[MetaSlot.name MetaSlot.time := number time]> (Meta.new None) in
  mk state [] [] (EditorState.selection state) meta 0.

(** The getter [doc].  [docs[last]] is read only when [0 <= last], where
    it exists; the default of [nth] is never reached. *)
Definition doc (tr : t) : Text.t :=
  let last := Z.of_nat (List.length (docs tr)) - 1 in
  if last <? 0 then EditorState.doc (startState tr)
  else nth (Z.to_nat last) (docs tr) (EditorState.doc (startState tr)).

Definition setMeta (slot : MetaSlot.t) (value : any) (tr : t) : t :=
  let meta := <[MetaSlot.name slot := value]> (Meta.new (Some (meta tr))) in
  mk (startState tr) (changes tr) (docs tr) (selection tr) meta (flags tr).

Definition getMeta (slot : MetaSlot.t) (tr : t) : any :=
  Meta.get (meta tr) (MetaSlot.name slot).

Definition change (c : Change.t) (tr : t) : t :=
  if (Change.from c =? Change.to c) && String.eqb (Change.text c) ""
  then tr
  else mk (startState tr)
          (changes tr ++ [c])
          (docs tr ++ [Change.apply c (doc tr)])
          (Selection.map (selection tr) c) (meta tr) (flags tr).

Definition replace (from to : Z) (text : string) (tr : t) : t :=
  change (Change.mk from to text) tr.

(** The inner loop of [reduceRanges]: [count] more rounds from index
    [j], each reading [changes[j]]. *)
Fixpoint remap_loop (count j : nat) (changes : list Change.t)
    (range : Range.t) : Range.t :=
  match count with
  | O => range
  | S count' =>
      match changes !! j with
      | Some c => remap_loop count' (S j) changes (Range.map range c)
      | None => range
      end
  end.

(** [for (let j = start; j < tr.changes.length; j++)
       range = range.map(tr.changes[j])]. *)
Definition remap (start : nat) (tr : t) (range : Range.t) : Range.t :=
  remap_loop (List.length (changes tr) - start) start (changes tr) range.

(** The outer loop of [reduceRanges]: [count] more rounds from index
    [i] over the ranges [sel] read before the loop. *)
Fixpoint reduce_loop (count i : nat) (sel : Selection.t) (start : nat)
    (f : t -> Range.t -> t) (tr : t) : t :=
  match count with
  | O => tr
  | S count' =>
      match Selection.ranges sel !! i with
      | Some range =>
          reduce_loop count' (S i) sel start f (f tr (remap start tr range))
      | None => tr
      end
  end.

Definition reduceRanges (f : t -> Range.t -> t) (tr : t) : t :=
  let sel := selection tr in
  let start := List.length (changes tr) in
  reduce_loop (List.length (Selection.ranges sel)) 0 sel start f tr.

Definition replaceSelection (text : string) (tr : t) : t :=
  reduceRanges
    (fun state r => change (Change.mk (Range.from r) (Range.to r) text) state)
    tr.

Definition setSelection (sel : Selection.t) (tr : t) : t :=
  mk (startState tr) (changes tr) (docs tr) sel (meta tr)
     (Z.lor (flags tr) FLAG_SELECTION_SET).

Definition selectionSet (tr : t) : bool :=
  Z.land (flags tr) FLAG_SELECTION_SET >? 0.

Definition scrollIntoView (tr : t) : t :=
  mk (startState tr) (changes tr) (docs tr) (selection tr) (meta tr)
     (Z.lor (flags tr) FLAG_SCROLL_INTO_VIEW).

Definition scrolledIntoView (tr : t) : bool :=
  Z.land (flags tr) FLAG_SCROLL_INTO_VIEW >? 0.

Definition view (tr : t) : TransactionView.t :=
  TransactionView.mk (EditorState.view (startState tr)) (changes tr)
    (docs tr) (selection tr) (meta tr) (flags tr).

(** The loop of [apply] over the fields still to be run. *)
Fixpoint apply_loop (fields : list StateField.t) (tr : t)
    (newState : EditorState.t) : EditorState.t :=
  match fields with
  | [] => newState
  | field :: rest =>
      let value :=
        StateField.apply field (view tr)
          (property (EditorState.slots (startState tr)) (StateField.key field))
          (EditorState.view newState) in
      apply_loop rest tr (EditorState.set newState (StateField.key field) value)
  end.

Definition apply (tr : t) : EditorState.t :=
  let conf := EditorState.config (startState tr) in
  let newState := EditorState.new conf (doc tr) (Some (selection tr)) in
  apply_loop (Configuration.fields conf) tr newState.

(** *** The calls [apply] makes

    One record per invocation of a field's [apply] callback: the field
    and the three arguments it was handed. *)
Record call : Type := mkCall {
  callee : StateField.t;
  arg_tr : TransactionView.t;
  arg_value : any;
  arg_newState : StateView.t
}.

Definition call_result (c : call) : any :=
  StateField.apply (callee c) (arg_tr c) (arg_value c) (arg_newState c).

(** [apply_loop] again, keeping the list of calls instead of the final
    state. *)
Fixpoint calls_loop (fields : list StateField.t) (tr : t)
    (newState : EditorState.t) : list call :=
  match fields with
  | [] => []
  | field :: rest =>
      let c :=
        mkCall field (view tr)
          (property (EditorState.slots (startState tr)) (StateField.key field))
          (EditorState.view newState) in
      c :: calls_loop rest tr
             (EditorState.set newState (StateField.key field) (call_result c))
  end.

Definition apply_calls (tr : t) : list call :=
  let conf := EditorState.config (startState tr) in
  calls_loop (Configuration.fields conf) tr
    (EditorState.new conf (doc tr) (Some (selection tr))).

(** No call is handed a state that holds a value for a field other than
    the one being called. *)
Definition sees_no_new_value (tr : t) : Prop :=
  forall (c : call) (other : StateField.t),
    c ∈ apply_calls tr ->
    other ∈ Configuration.fields (EditorState.config (startState tr)) ->
    StateField.key other <> StateField.key (callee c) ->
    StateView.slots (arg_newState c) !! StateField.key other = None.

(** *** Transactions built through the interface

    [builds ok tr0 tr]: [tr] comes from [tr0] by a chain of the builder
    methods, where [ok] says which callbacks [reduceRanges] is given. *)
Inductive builds (ok : (t -> Range.t -> t) -> Prop) (tr0 : t) : t -> Prop :=
  | builds_refl : builds ok tr0 tr0
  | builds_setMeta tr slot value :
      builds ok tr0 tr -> builds ok tr0 (setMeta slot value tr)
  | builds_change tr c :
      builds ok tr0 tr -> builds ok tr0 (change c tr)
  | builds_replace tr from to text :
      builds ok tr0 tr -> builds ok tr0 (replace from to text tr)
  | builds_replaceSelection tr text :
      builds ok tr0 tr -> builds ok tr0 (replaceSelection text tr)
  | builds_reduceRanges tr f :
      builds ok tr0 tr -> ok f -> builds ok tr0 (reduceRanges f tr)
  | builds_setSelection tr sel :
      builds ok tr0 tr -> builds ok tr0 (setSelection sel tr)
  | builds_scrollIntoView tr :
      builds ok tr0 tr -> builds ok tr0 (scrollIntoView tr).

(** The callbacks [reduceRanges] can be given: whatever a callback
    returns was built from the transaction it received or from a fresh
    [start], with calls of [reduceRanges] nested at most [depth] deep. *)
Fixpoint callback (depth : nat) (f : t -> Range.t -> t) : Prop :=
  match depth with
  | O => False
  | S depth' =>
      forall tr range,
        builds (callback depth') tr (f tr range)
        \/ exists state time,
             builds (callback depth') (start state time) (f tr range)
  end.

(** The transactions a program can hold: the constructor is private, so
    each one was started from a state and grown by builder methods. *)
Definition reachable (tr : t) : Prop :=
  exists depth state time, builds (callback depth) (start state time) tr.

(** The documents a list of changes produces, one after the other. *)
Fixpoint docs_of (doc : Text.t) (changes : list Change.t) : list Text.t :=
  match changes with
  | [] => []
  | c :: rest => Change.apply c doc :: docs_of (Change.apply c doc) rest
  end.

(** The invariant of the two lists. *)
Definition docs_follow_changes (tr : t) : Prop :=
  docs tr = docs_of (EditorState.doc (startState tr)) (changes tr).

(** Unless the selection was set explicitly, it is the start state's
    selection mapped through the changes made so far. *)
Definition selection_follows (tr : t) : Prop :=
  selectionSet tr = false ->
  selection tr
  = fold_left Selection.map (changes tr) (EditorState.selection (startState tr)).

End Transaction.

(** ** The facet-era EditorState ([state/src/state.ts]) *)

Module Facets.

(** Modelled from the spec: [Text.of] of the text package is not part of
    the sources at hand.  It builds the document from its lines; the
    spec's document is one sequence of code units with [length], so the
    lines are joined with one line break each. *)
Definition Text_of (lines : list string) : Text.t :=
  String.concat (String "010"%char "") lines.

(** [text.split(DEFAULT_SPLIT)] with [DEFAULT_SPLIT = /\r\n?|\n/];
    [line] is the line read so far. *)
Fixpoint split_default (text : string) (line : string) : list string :=
  match text with
  | EmptyString => [line]
  | String c rest =>
      if Ascii.eqb c "013"%char then
        match rest with
        | String c' rest' =>
            if Ascii.eqb c' "010"%char then line :: split_default rest' ""
            else line :: split_default rest ""
        | EmptyString => line :: split_default rest ""
        end
      else if Ascii.eqb c "010"%char then line :: split_default rest ""
      else split_default rest (line +:+ String c "")
  end.

(** Modelled from the spec: [EditorSelection] of [./selection] is not
    part of the sources at hand.  The spec gives a selection as an
    ordered sequence of ranges with [to = max(anchor, head)], the first
    one primary; [single] is the selection of one zero-width range and
    [asSingle] collapses a selection to its primary range. *)
Definition single (pos : Z) : Selection.t := Selection.mk [Range.cursor pos].

Definition asSingle (selection : Selection.t) : Selection.t :=
  Selection.mk (take 1 (Selection.ranges selection)).

Section Collaborators.

(** What the constructor and [create] use of [./facet] and
    [./transaction], which are not part of the sources at hand: the
    resolved configuration with its dynamic slots and its two static
    facets, the slot status [Uninitialized], and [initState].
    [split] is [String.prototype.split] with a string separator. *)
Variables Configuration DynamicSlot SlotStatus Extension Transaction : Type.
Variable dynamicSlots : Configuration -> list DynamicSlot.
Variable Uninitialized : SlotStatus.
Variable resolve : Extension -> result Configuration.
Variable noExtensions : Extension.
Variable lineSeparator : Configuration -> option string.
Variable allowMultipleSelections : Configuration -> bool.
Variable split : string -> string -> list string.

Record t : Type := mk {
  config : Configuration;
  doc : Text.t;
  selection : Selection.t;
  values : list any;
  status : list SlotStatus;
  applying : option Transaction
}.

Variable initState : t -> option Transaction -> result t.

Definition out_of_document : exn :=
  RangeError "Selection points outside of document".

(** [for (let range of selection.ranges)
       if (range.to > doc.length) throw new RangeError(...)]. *)
Fixpoint check_ranges (ranges : list Range.t) (doc : Text.t)
    : result unit :=
  match ranges with
  | [] => Ok tt
  | range :: rest =>
      if Range.to range >? Text.length doc then Throw out_of_document
      else check_ranges rest doc
  end.

(** The constructor. *)
Definition new (config : Configuration) (doc : Text.t)
    (selection : Selection.t) (values : option (list any)) : result t :=
  bind (check_ranges (Selection.ranges selection) doc) (fun _ =>
    Ok (mk config doc selection
          (match values with
           | Some vs => vs
           | None => List.map (fun _ => null) (dynamicSlots config)
           end)
          (List.map (fun _ => Uninitialized) (dynamicSlots config))
          None)).

Record editorStateConfig : Type := mkConfig {
  cfg_doc : option EditorState.docSource;
  cfg_selection : option Selection.t;
  cfg_extensions : option Extension
}.

(** [(config.doc || "").split(lineSeparator || DEFAULT_SPLIT)]. *)
Definition split_doc (configuration : Configuration) (text : string)
    : list string :=
  match lineSeparator configuration with
  | Some sep =>
      if String.eqb sep "" then split_default text "" else split text sep
  | None => split_default text ""
  end.

Definition create (cfg : editorStateConfig) : result t :=
  bind (resolve (default noExtensions (cfg_extensions cfg)))
    (fun configuration =>
      let doc :=
        match cfg_doc cfg with
        | Some (EditorState.fromText d) => d
        | Some (EditorState.fromString s) =>
            Text_of (split_doc configuration s)
        | None => Text_of (split_doc configuration "")
        end in
      let selection := default (single 0) (cfg_selection cfg) in
      let selection :=
        if negb (allowMultipleSelections configuration)
        then asSingle selection else selection in
      bind (new configuration doc selection None) (fun state =>
        initState state None)).

(** [this.facet(EditorState.lineSeparator)]: the configured separator,
    [None] for [undefined].  [facet] reads the addresses of the
    configuration, which belong to [./facet]. *)
Variable facet_lineSeparator : t -> option string.

(** [this.facet(EditorState.lineSeparator) || other]: [undefined] and the
    empty string are falsy. *)
Definition configured_separator (state : t) : option string :=
  match facet_lineSeparator state with
  | Some sep => if String.eqb sep "" then None else Some sep
  | None => None
  end.

Definition joinLines (state : t) (text : list string) : string :=
  String.concat
    (default (String "010"%char "") (configured_separator state)) text.

Definition splitLines (state : t) (text : string) : list string :=
  match configured_separator state with
  | Some sep => split text sep
  | None => split_default text ""
  end.

(** [EditorSelection.fromJSON] belongs to [./selection]; it may throw. *)
Variable selection_fromJSON : any -> result Selection.t.

Definition invalid_json : exn :=
  RangeError "Invalid JSON representation for EditorState".

(** [config] is the caller's [EditorStateConfig], [{}] by default; only
    its [extensions] are read. *)
Definition fromJSON (json : any) (config : editorStateConfig) : result t :=
  if negb (truthy json) || negb (is_string (get_property json "doc"))
  then Throw invalid_json
  else
    bind (selection_fromJSON (get_property json "selection")) (fun selection =>
      create
        (mkConfig
           (match get_property json "doc" with
            | str doc => Some (EditorState.fromString doc)
            | _ => None
            end)
           (Some selection)
           (cfg_extensions config))).

End Collaborators.

Arguments joinLines {Configuration SlotStatus Transaction}.
Arguments splitLines {Configuration SlotStatus Transaction}.
Arguments configured_separator {Configuration SlotStatus Transaction}.
Arguments fromJSON {Configuration DynamicSlot SlotStatus Extension Transaction}.

(** No carriage return occurs in the text. *)
Fixpoint no_carriage_return (text : string) : bool :=
  match text with
  | EmptyString => true
  | String c rest => negb (Ascii.eqb c "013"%char) && no_carriage_return rest
  end.

Arguments mk {Configuration SlotStatus Transaction}.
Arguments config {Configuration SlotStatus Transaction}.
Arguments doc {Configuration SlotStatus Transaction}.
Arguments selection {Configuration SlotStatus Transaction}.
Arguments values {Configuration SlotStatus Transaction}.
Arguments status {Configuration SlotStatus Transaction}.
Arguments applying {Configuration SlotStatus Transaction}.
Arguments new {Configuration DynamicSlot SlotStatus Transaction}.
Arguments mkConfig {Extension}.
Arguments create {Configuration DynamicSlot SlotStatus Extension Transaction}.

End Facets.

(** ** Predicates the properties are stated with *)

(** A change that replaces nothing by nothing. *)
Definition degenerate (c : Change.t) : Prop :=
  Change.from c = Change.to c /\ Change.text c = "".

(** Every range of the selection lies within a document of [n] code
    units. *)
Definition selection_within (sel : Selection.t) (n : Z) : Prop :=
  Forall (fun r => 0 <= Range.from r /\ Range.to r <= n) (Selection.ranges sel).

(** ** Scenarios *)

(** The state of the scenario: document "abcdef", cursors at 0 and 3. *)
Definition two_cursors : EditorState.editorStateConfig :=
  EditorState.mkConfig
    (Some (EditorState.fromString "abcdef"))
    (Some (Selection.mk [Range.cursor 0; Range.cursor 3]))
    None.

(** The state of the single-change scenario: document "hello", cursor at 5. *)
Definition hello_state : EditorState.t :=
  EditorState.new (Configuration.mk [] []) "hello"
    (Some (Selection.mk [Range.cursor 5])).

(** Two fields, made one after the other from an empty registry: a
    counter, and a field whose rule reads the counter's slot off the
    state it is handed. *)
Definition counter_spec : StateField.spec :=
  StateField.mkSpec
    (fun _ => number 0)
    (fun _ value _ =>
       match value with
       | number n => number (n + 1)
       | _ => value
       end)
    (Some "counter").

Definition counter_field : StateField.t :=
  Eval vm_compute in (StateField.new counter_spec ∅).1.

Definition mirror_spec : StateField.spec :=
  StateField.mkSpec
    (fun _ => number 0)
    (fun _ _ newState =>
       property (StateView.slots newState) (StateField.key counter_field))
    (Some "mirror").

Definition mirror_field : StateField.t :=
  Eval vm_compute in
    (StateField.new mirror_spec (StateField.new counter_spec ∅).2).1.

Definition two_fields : EditorState.editorStateConfig :=
  EditorState.mkConfig
    (Some (EditorState.fromString "ab"))
    None
    (Some [Plugin.new (Plugin.mkSpec (Some counter_field) undefined undefined);
           Plugin.new (Plugin.mkSpec (Some mirror_field) undefined undefined)]).

Definition two_fields_state : EditorState.t :=
  EditorState.init_fields [counter_field; mirror_field]
    (EditorState.new
       (Configuration.mk (default [] (EditorState.cfg_plugins two_fields))
          [counter_field; mirror_field])
       "ab" None).

(** * Position mapping *)

(** Case analysis over the integer comparisons a definition branches on,
    equality tests first: they sit innermost in [mapPos]. *)
Ltac split_compare :=
  cbv zeta;
  repeat (match goal with
    | |- context [Z.eqb ?a ?b] => destruct (Z.eqb_spec a b)
    | |- context [Z.gtb ?a ?b] => destruct (Z.gtb_spec a b)
    | |- context [Z.leb ?a ?b] => destruct (Z.leb_spec a b)
    | |- context [Z.ltb ?a ?b] => destruct (Z.ltb_spec a b)
    end; simpl).

Section MapPos.

Import Change.

Variable c : Change.t.

Lemma mapPos_before pos bias :
  pos < from c -> mapPos c pos bias = pos.
Proof. intros H. unfold mapPos. split_compare; lia. Qed.

Lemma mapPos_default_before pos :
  pos < from c -> mapPos_default c pos = pos.
Proof. apply mapPos_before. Qed.

Lemma mapPos_stays_at_from bias :
  bias < 0 -> mapPos c (from c) bias = from c.
Proof. intros H. unfold mapPos. split_compare; lia. Qed.

Lemma mapPos_after pos bias :
  from c <= to c -> to c < pos ->
  mapPos c pos bias = pos + strlen (text c) - (to c - from c).
Proof. intros Hv Ht. unfold mapPos. split_compare; lia. Qed.

(** With the default bias every position at or past both ends of the
    replaced interval moves by the change in length. *)
Lemma mapPos_default_from_to pos :
  from c <= pos -> to c <= pos ->
  mapPos_default c pos = pos + strlen (text c) - (to c - from c).
Proof.
  intros Hf Ht. unfold mapPos_default, mapPos. split_compare; lia.
Qed.

(** With the default bias every position inside the replaced interval
    lands on one of the two ends of the replacement. *)
Lemma mapPos_default_inside pos :
  from c <= pos -> pos < to c ->
  mapPos_default c pos =
    if pos =? from c then from c else from c + strlen (text c).
Proof.
  intros Hf Ht. unfold mapPos_default, mapPos. split_compare; lia.
Qed.

End MapPos.

(** C1.  [mapPos(pos, bias)] for every change, position and bias: a
    position before [from], or at [from] under a negative bias, is
    returned as it is; otherwise a position past [to] moves by
    [text.length - (to - from)]; otherwise a side is resolved (the bias
    for a pure insertion, else -1 at [from], else 1 at [to], else the
    bias) and the result is [from] for a negative side and
    [from + text.length] for any other. *)
Theorem mapPos_by_cases (c : Change.t) (pos bias : Z) :
  let unaffected := pos < Change.from c \/ (bias < 0 /\ pos = Change.from c) in
  (unaffected -> Change.mapPos c pos bias = pos)
  /\ (~ unaffected -> pos > Change.to c ->
      Change.mapPos c pos bias
      = pos + strlen (Change.text c) - (Change.to c - Change.from c))
  /\ (~ unaffected -> ~ pos > Change.to c ->
      exists side,
        Change.resolves_side c pos bias side
        /\ (side < 0 -> Change.mapPos c pos bias = Change.from c)
        /\ (~ side < 0 ->
            Change.mapPos c pos bias = Change.from c + strlen (Change.text c))).
Proof.
  cbv zeta. repeat split.
  - intros [H | [Hb ->]].
    + now apply mapPos_before.
    + now apply mapPos_stays_at_from.
  - intros Hn Hgt. unfold Change.mapPos. split_compare; lia.
  - intros Hn Hle.
    exists (if Change.from c =? Change.to c then bias
            else if pos =? Change.from c then -1
            else if pos =? Change.to c then 1 else bias).
    unfold Change.resolves_side, Change.mapPos.
    repeat split; split_compare; intros; lia.
Qed.

(** C5.  With the default bias, for a position [p] outside the half-open
    interval [[from, to)]: [p < from] is mapped to itself; every [p] on
    the far side ([from <= p], hence [to <= p]) moves by exactly
    [text.length - (to - from)]; and a position that moves at all lies at
    or after [to]. *)
Theorem mapPos_outside (c : Change.t) (p : Z) :
  Change.outside c p ->
  (p < Change.from c -> Change.mapPos_default c p = p)
  /\ (Change.from c <= p ->
      Change.mapPos_default c p
      = p + strlen (Change.text c) - (Change.to c - Change.from c))
  /\ (Change.mapPos_default c p <> p -> Change.to c <= p).
Proof.
  intros Hout. repeat split.
  - intros H. now apply mapPos_before.
  - intros H. apply mapPos_default_from_to; [assumption |].
    destruct Hout; [lia | assumption].
  - intros Hmoved. destruct Hout as [Hlt | Hge]; [| assumption].
    exfalso. apply Hmoved. now apply mapPos_before.
Qed.

Lemma mapPos_outside_witness :
  Change.outside (Change.mk 0 5 "hi") 5
  /\ Change.mapPos_default (Change.mk 0 5 "hi") 5 = 2.
Proof.
  assert (Hout : Change.outside (Change.mk 0 5 "hi") 5) by (right; simpl; lia).
  split; [exact Hout |].
  destruct (mapPos_outside (Change.mk 0 5 "hi") 5 Hout) as (_ & Hshift & _).
  rewrite Hshift; [reflexivity | simpl; lia].
Defined.

(** * Mapping ranges *)

(** [Range.map] returns the receiver itself when neither end moves; as a
    value the result is always the pair of the two mapped ends. *)
Lemma Range_map_ends (r : Range.t) (c : Change.t) :
  Range.map r c
  = Range.mk (Change.mapPos_default c (Range.anchor r))
             (Change.mapPos_default c (Range.head r)).
Proof.
  unfold Range.map. destruct r as [a h]. simpl.
  destruct (Z.eqb_spec (Change.mapPos_default c a) a) as [Ha | Ha];
    destruct (Z.eqb_spec (Change.mapPos_default c h) h) as [Hh | Hh];
    simpl; congruence.
Qed.

(** C10.  A cursor that sits exactly where text is inserted ends up after
    the inserted text: [Range.map] passes no bias, so [mapPos] runs with
    its default [1]. *)
Theorem cursor_moves_past_insertion (r : Range.t) (c : Change.t) (p : Z) :
  Range.anchor r = p -> Range.head r = p ->
  Change.from c = p -> Change.to c = p ->
  Change.text c <> "" ->
  Range.map r c
  = Range.mk (p + strlen (Change.text c)) (p + strlen (Change.text c)).
Proof.
  intros Ha Hh Hf Ht _. rewrite Range_map_ends, Ha, Hh.
  rewrite mapPos_default_from_to by lia.
  f_equal; lia.
Qed.

Lemma cursor_moves_past_insertion_witness :
  Range.map (Range.cursor 3) (Change.mk 3 3 "xy") = Range.mk 5 5.
Proof.
  apply (cursor_moves_past_insertion (Range.cursor 3) (Change.mk 3 3 "xy") 3);
    try reflexivity.
  discriminate.
Defined.

(** * Inverting a change *)

Lemma length_substring (s : string) (n m : nat) :
  (n + m <= String.length s)%nat -> String.length (substring n m s) = m.
Proof.
  revert n m. induction s as [| ch s IH]; intros n m H; simpl in H.
  - assert (n = 0%nat) by lia. assert (m = 0%nat) by lia. subst. reflexivity.
  - destruct n as [| n]; destruct m as [| m]; simpl; try reflexivity.
    + f_equal. apply (IH 0%nat m). lia.
    + apply (IH n 0%nat). lia.
    + apply (IH n (S m)). lia.
Qed.

Lemma substring_nothing (s : string) (n : nat) : substring n 0 s = "".
Proof.
  revert n. induction s as [| ch s IH]; intros [| n]; simpl; auto.
Qed.

(** On a document the change addresses, [invert] restores as many code
    units as the change removed. *)
Lemma invert_text_length (c : Change.t) (doc : Text.t) :
  Change.valid c doc ->
  strlen (Change.text (Change.invert c doc)) = Change.to c - Change.from c.
Proof.
  intros (H0 & Hft & Hlen). unfold Change.invert, Text.slice, strlen. simpl.
  unfold Text.length, strlen in Hlen.
  rewrite length_substring by lia. lia.
Qed.

Lemma strlen_empty (s : string) : s = "" -> strlen s = 0.
Proof. intros ->. reflexivity. Qed.

(** One position through a change and back through its inverse. *)
Lemma mapPos_there_and_back (c : Change.t) (docBefore : Text.t) (pos : Z) :
  Change.valid c docBefore ->
  Change.from c = Change.to c \/ Change.text c = "" ->
  Change.outside c pos ->
  Change.mapPos_default (Change.invert c docBefore)
    (Change.mapPos_default c pos) = pos.
Proof.
  intros Hvalid Hpure Hout.
  pose proof (invert_text_length c docBefore Hvalid) as Hlen.
  destruct Hvalid as (H0 & Hft & Hdoc).
  assert (Hfrom : Change.from (Change.invert c docBefore) = Change.from c)
    by reflexivity.
  assert (Hto : Change.to (Change.invert c docBefore)
                = Change.from c + strlen (Change.text c)) by reflexivity.
  assert (Hpos : 0 <= strlen (Change.text c)) by (unfold strlen; lia).
  destruct (Z.lt_ge_cases pos (Change.from c)) as [Hlt | Hge].
  - rewrite (mapPos_default_before c) by assumption.
    apply mapPos_default_before. rewrite Hfrom. assumption.
  - assert (Hge' : Change.to c <= pos) by (destruct Hout; lia).
    rewrite (mapPos_default_from_to c) by assumption.
    destruct Hpure as [Hins | Hdel].
    + (* insertion: the inverse deletes what was inserted *)
      rewrite mapPos_default_from_to; rewrite ?Hfrom, ?Hto, ?Hlen; lia.
    + (* deletion: the inverse inserts the deleted text at [from] *)
      rewrite (strlen_empty _ Hdel) in *.
      rewrite mapPos_default_from_to; rewrite ?Hfrom, ?Hto, ?Hlen; lia.
Qed.

(** C2.  For a change that is a pure insertion or a pure deletion of the
    document it is applied to, a range whose two offsets lie outside the
    replaced interval [[from, to)] is restored by mapping it through the
    change and then through [invert(docBefore)]. *)
Theorem range_round_trip (c : Change.t) (docBefore : Text.t) (r : Range.t) :
  Change.valid c docBefore ->
  Change.from c = Change.to c \/ Change.text c = "" ->
  Change.outside c (Range.anchor r) ->
  Change.outside c (Range.head r) ->
  Change.invert c docBefore
  = Change.mk (Change.from c) (Change.from c + strlen (Change.text c))
      (Text.slice docBefore (Change.from c) (Change.to c))
  /\ Range.map (Range.map r c) (Change.invert c docBefore) = r.
Proof.
  intros Hvalid Hpure Ha Hh. split; [reflexivity |].
  rewrite (Range_map_ends r c), Range_map_ends. simpl.
  rewrite !(mapPos_there_and_back c docBefore) by assumption.
  now destruct r.
Qed.

Lemma range_round_trip_witness :
  let c := Change.mk 1 3 "" in
  Range.map (Range.map (Range.mk 0 5) c) (Change.invert c "abcdef")
  = Range.mk 0 5.
Proof.
  cbv zeta.
  refine (proj2 (range_round_trip (Change.mk 1 3 "") "abcdef" (Range.mk 0 5)
                   _ _ _ _)).
  - unfold Change.valid. simpl. unfold Text.length, strlen. simpl. lia.
  - right. reflexivity.
  - left. simpl. lia.
  - right. simpl. lia.
Defined.

(** The hypothesis on the offsets cannot be dropped for a deletion: an
    offset inside [[from, to)] comes back as [to]. *)
Lemma deletion_inside_not_restored (c : Change.t) (docBefore : Text.t) (pos : Z) :
  Change.valid c docBefore -> Change.text c = "" ->
  Change.from c <= pos < Change.to c ->
  Change.mapPos_default (Change.invert c docBefore)
    (Change.mapPos_default c pos) = Change.to c.
Proof.
  intros Hvalid Hdel [Hf Ht].
  pose proof (invert_text_length c docBefore Hvalid) as Hlen.
  rewrite (mapPos_default_inside c) by assumption.
  rewrite (strlen_empty _ Hdel) in *.
  assert (Hsame : (if pos =? Change.from c then Change.from c
                   else Change.from c + 0) = Change.from c)
    by (destruct (pos =? Change.from c); lia).
  rewrite Hsame.
  rewrite mapPos_default_from_to; rewrite ?Hlen; simpl;
    rewrite ?(strlen_empty _ Hdel); lia.
Qed.

(** A pure insertion is undone at every position, the insertion point
    included, whatever the document. *)
Lemma insertion_round_trip_everywhere (c : Change.t) (docBefore : Text.t) (pos : Z) :
  Change.from c = Change.to c ->
  Change.mapPos_default (Change.invert c docBefore)
    (Change.mapPos_default c pos) = pos.
Proof.
  intros Hins.
  assert (Hpos : 0 <= strlen (Change.text c)) by (unfold strlen; lia).
  assert (Hlen : strlen (Change.text (Change.invert c docBefore)) = 0).
  { unfold Change.invert, Text.slice. simpl. rewrite Hins, Nat.sub_diag.
    now rewrite substring_nothing. }
  destruct (Z.lt_ge_cases pos (Change.from c)) as [Hlt | Hge].
  - rewrite (mapPos_default_before c) by assumption.
    now apply mapPos_default_before.
  - rewrite (mapPos_default_from_to c) by lia.
    rewrite mapPos_default_from_to; rewrite ?Hlen; simpl; lia.
Qed.

(** * Unique names are fresh *)

Lemma candidate_inj (prefix : string) : Inj (=) (=) (candidate prefix).
Proof.
  intros i j Heq. unfold candidate in Heq.
  apply (inj (String.app prefix)) in Heq.
  destruct i as [| i], j as [| j]; try discriminate; [reflexivity |].
  now apply (inj (String.app "_")), (inj pretty) in Heq.
Qed.

(** If the first [n] candidates are all taken, the registry has at least
    [n] names. *)
Lemma taken_candidates_bound (prefix : string) (names : gmap string string)
    (n : nat) :
  (forall j, (j < n)%nat -> is_Some (names !! candidate prefix j)) ->
  (n <= size names)%nat.
Proof.
  intros Htaken.
  set (l := candidate prefix <$> seq 0 n).
  assert (Hnodup : NoDup l).
  { apply (NoDup_fmap_2 (candidate prefix) (Inj0 := candidate_inj prefix)).
    apply NoDup_seq. }
  assert (Hsub : list_to_set (C := gset string) l ⊆ dom names).
  { intros name Hin. apply elem_of_list_to_set in Hin.
    apply list_elem_of_fmap in Hin as (j & -> & Hj).
    apply elem_of_dom, Htaken. apply elem_of_seq in Hj. lia. }
  apply subseteq_size in Hsub.
  rewrite size_list_to_set, size_dom in Hsub by assumption.
  unfold l in Hsub. now rewrite length_fmap, length_seq in Hsub.
Qed.

Lemma unique_from_is_fresh (prefix : string) (names : gmap string string) :
  forall fuel i,
    (forall j, (j < i)%nat -> is_Some (names !! candidate prefix j)) ->
    (i + fuel = size names)%nat ->
    exists k, unique_from fuel i prefix names
              = (candidate prefix k, <[candidate prefix k := candidate prefix k]> names)
              /\ names !! candidate prefix k = None.
Proof.
  induction fuel as [| fuel IH]; intros i Htaken Hsize; simpl.
  - destruct (names !! candidate prefix i) eqn:Hi; [| now exists i].
    exfalso.
    assert (Hbound : (S i <= size names)%nat); [| lia].
    apply (taken_candidates_bound prefix). intros j Hj.
    destruct (decide (j = i)) as [-> | Hne]; [now rewrite Hi |].
    apply Htaken. lia.
  - destruct (names !! candidate prefix i) eqn:Hi; [| now exists i].
    apply IH; [| lia]. intros j Hj.
    destruct (decide (j = i)) as [-> | Hne]; [now rewrite Hi |].
    apply Htaken. lia.
Qed.

(** [unique] returns a name that was not registered and registers it. *)
Lemma unique_is_fresh (prefix : string) (names : gmap string string) :
  names !! (unique prefix names).1 = None
  /\ (unique prefix names).2
     = <[(unique prefix names).1 := (unique prefix names).1]> names.
Proof.
  unfold unique.
  destruct (unique_from_is_fresh prefix names (size names) 0) as (k & -> & Hk).
  - intros j Hj. lia.
  - reflexivity.
  - now split.
Qed.

Lemma unique_result (prefix : string) (names : gmap string string) :
  exists name,
    unique prefix names = (name, <[name := name]> names)
    /\ names !! name = None.
Proof.
  unfold unique.
  destruct (unique_from_is_fresh prefix names (size names) 0) as (k & Hk & Hfree).
  - intros j Hj. lia.
  - reflexivity.
  - eauto.
Qed.

(** Two fields constructed one after the other never share a key, so
    comparing keys is comparing field objects. *)
Lemma constructed_fields_differ (s1 s2 : StateField.spec)
    (fieldNames : gmap string string) :
  let (f1, fieldNames') := StateField.new s1 fieldNames in
  let (f2, _) := StateField.new s2 fieldNames' in
  StateField.same f1 f2 = false.
Proof.
  unfold StateField.new.
  destruct (unique_result ("$" +:+ default "field" (StateField.spec_debugName s1))
              fieldNames) as (key1 & -> & _).
  destruct (unique_result ("$" +:+ default "field" (StateField.spec_debugName s2))
              (<[key1 := key1]> fieldNames)) as (key2 & -> & Hfresh).
  unfold StateField.same. simpl. apply String.eqb_neq. intros ->.
  rewrite lookup_insert_eq in Hfresh. discriminate.
Qed.

(** The predefined metadata slots are the first three slots made. *)
Lemma predefined_slots :
  let (time, names1) := MetaSlot.new (Some "time") ∅ in
  let (addToHistory, names2) := MetaSlot.new (Some "addToHistory") names1 in
  let (rebased, _) := MetaSlot.new (Some "rebased") names2 in
  time = MetaSlot.time
  /\ addToHistory = MetaSlot.addToHistory
  /\ rebased = MetaSlot.rebased.
Proof. vm_compute. auto. Qed.

(** * Configuration: one installation per field *)

Section Fields.

Import Configuration.

#[local] Abbreviation keys := (List.map StateField.key).

Lemma same_key (f g : StateField.t) :
  StateField.same f g = true <-> StateField.key f = StateField.key g.
Proof. apply String.eqb_eq. Qed.

Lemma indexOf_from_range (fields : list StateField.t) (field : StateField.t) :
  forall i, 0 <= i ->
    (StateField.key field ∈ keys fields -> i <= indexOf_from i fields field)
    /\ (StateField.key field ∉ keys fields -> indexOf_from i fields field = -1).
Proof.
  induction fields as [| f rest IH]; intros i Hi; simpl.
  - split; [intros H; inversion H | reflexivity].
  - destruct (StateField.same f field) eqn:Hsame.
    + apply same_key in Hsame. split; [lia |].
      intros Hnot. exfalso. apply Hnot. rewrite Hsame. apply list_elem_of_here.
    + assert (Hne : StateField.key field <> StateField.key f).
      { intros Heq. symmetry in Heq. apply same_key in Heq. congruence. }
      destruct (IH (i + 1) ltac:(lia)) as [Hin Hout]. split.
      * intros H. apply elem_of_cons in H as [H | H]; [contradiction |].
        specialize (Hin H). lia.
      * intros H. apply Hout. intros Hrest. apply H. now apply list_elem_of_further.
Qed.

Lemma indexOf_found (fields : list StateField.t) (field : StateField.t) :
  (indexOf fields field >? -1) = true <-> StateField.key field ∈ keys fields.
Proof.
  unfold indexOf.
  destruct (indexOf_from_range fields field 0 ltac:(lia)) as [Hin Hout].
  destruct (decide (StateField.key field ∈ keys fields)) as [H | H].
  - specialize (Hin H). split; [auto | intros _].
    destruct (Z.gtb_spec (indexOf_from 0 fields field) (-1)); [reflexivity | lia].
  - rewrite (Hout H). split; [discriminate | contradiction].
Qed.

Lemma collect_all (plugins : list Plugin.t) :
  forall fields,
    NoDup (keys (fields ++ omap Plugin.stateField plugins)) ->
    collect plugins fields = Ok (fields ++ omap Plugin.stateField plugins).
Proof.
  induction plugins as [| plugin rest IH]; intros fields Hnodup; simpl in *.
  - now rewrite app_nil_r.
  - destruct (Plugin.stateField plugin) as [field |]; [| now apply IH].
    destruct (indexOf fields field >? -1) eqn:Hfound.
    + apply indexOf_found in Hfound. exfalso.
      rewrite map_app in Hnodup. apply NoDup_app in Hnodup as (_ & Hdisjoint & _).
      apply (Hdisjoint _ Hfound). simpl. apply list_elem_of_here.
    + rewrite IH; now rewrite <- app_assoc.
Qed.

Lemma collect_duplicate (plugins : list Plugin.t) :
  forall fields,
    NoDup (keys fields) ->
    ~ NoDup (keys (fields ++ omap Plugin.stateField plugins)) ->
    exists field,
      field ∈ omap Plugin.stateField plugins
      /\ collect plugins fields = Throw (Error (duplicate_message field)).
Proof.
  induction plugins as [| plugin rest IH]; intros fields Hfields Hdup;
    simpl in *.
  - rewrite app_nil_r in Hdup. contradiction.
  - destruct (Plugin.stateField plugin) as [field |]; [| now apply IH].
    destruct (indexOf fields field >? -1) eqn:Hfound.
    + exists field. split; [apply list_elem_of_here | reflexivity].
    + assert (Hfresh : StateField.key field ∉ keys fields).
      { intros Hin. apply indexOf_found in Hin. congruence. }
      destruct (IH (fields ++ [field])) as (dup & Hin & Hthrow).
      * rewrite map_app. apply NoDup_app. repeat split; [assumption | |].
        -- intros k Hk Hk'. simpl in Hk'. apply list_elem_of_singleton in Hk'.
           now subst k.
        -- simpl. apply NoDup_singleton.
      * now rewrite <- app_assoc, <- cons_middle.
      * exists dup. split; [now apply list_elem_of_further | assumption].
Qed.

(** The constructor succeeds exactly on plugin lists that carry every
    field once, and then records the fields in plugin order. *)
Lemma new_fields (plugins : list Plugin.t) :
  NoDup (keys (omap Plugin.stateField plugins)) ->
  new plugins = Ok (mk plugins (omap Plugin.stateField plugins)).
Proof.
  intros Hnodup. unfold new. now rewrite (collect_all plugins []).
Qed.

Lemma new_fields_once (plugins : list Plugin.t) (conf : Configuration.t) :
  new plugins = Ok conf -> NoDup (keys (fields conf)).
Proof.
  intros Hnew.
  destruct (decide (NoDup (keys (omap Plugin.stateField plugins)))) as [H | H].
  - rewrite (new_fields plugins H) in Hnew. inversion Hnew. assumption.
  - destruct (collect_duplicate plugins [] (@NoDup_nil_2 string) H)
      as (field & _ & Hthrow).
    unfold new in Hnew. rewrite Hthrow in Hnew. discriminate.
Qed.

End Fields.

(** C6.  A plugin list in which two plugins carry the same state field
    is rejected: the [Configuration] constructor throws the error "A
    state field (...) can only be added to a state once". *)
Theorem duplicate_field_rejected
    (before between after : list Plugin.t) (p q : Plugin.t)
    (f g : StateField.t) :
  Plugin.stateField p = Some f ->
  Plugin.stateField q = Some g ->
  StateField.same f g = true ->
  exists field,
    field ∈ omap Plugin.stateField (before ++ p :: between ++ q :: after)
    /\ Configuration.new (before ++ p :: between ++ q :: after)
       = Throw (Error (Configuration.duplicate_message field)).
Proof.
  intros Hp Hq Hsame. apply same_key in Hsame.
  destruct (collect_duplicate (before ++ p :: between ++ q :: after) [])
    as (field & Hin & Hthrow).
  - apply NoDup_nil_2.
  - simpl. rewrite omap_app. simpl. rewrite Hp, omap_app. simpl. rewrite Hq.
    rewrite map_app. simpl. rewrite map_app. simpl.
    intros Hnodup. apply NoDup_app in Hnodup as (_ & _ & Hnodup).
    apply NoDup_cons in Hnodup as [Hnot _]. apply Hnot.
    apply elem_of_app. right. rewrite Hsame. apply list_elem_of_here.
  - exists field. split; [assumption |].
    unfold Configuration.new. now rewrite Hthrow.
Qed.

Lemma duplicate_field_rejected_witness :
  let plugin := Plugin.new (Plugin.mkSpec (Some counter_field) undefined undefined) in
  exists field,
    field ∈ omap Plugin.stateField [plugin; plugin]
    /\ Configuration.new [plugin; plugin]
       = Throw (Error (Configuration.duplicate_message field)).
Proof.
  cbv zeta.
  apply (duplicate_field_rejected [] [] []
           (Plugin.new (Plugin.mkSpec (Some counter_field) undefined undefined))
           (Plugin.new (Plugin.mkSpec (Some counter_field) undefined undefined))
           counter_field counter_field);
    reflexivity.
Defined.

(** * Transactions: the loops of [reduceRanges] *)

Lemma fold_left_pointwise {A B : Type} (f g : A -> B -> A) (l : list B) :
  (forall a b, f a b = g a b) ->
  forall a, fold_left f l a = fold_left g l a.
Proof.
  intros Hfg. induction l as [| b l IH]; intros a; simpl; [reflexivity |].
  now rewrite Hfg, IH.
Qed.

Section ReduceRanges.

Import Transaction.

Lemma remap_loop_fold (changes : list Change.t) :
  forall count j range,
    count = (List.length changes - j)%nat ->
    remap_loop count j changes range
    = fold_left Range.map (drop j changes) range.
Proof.
  induction count as [| count IH]; intros j range Hcount; simpl.
  - rewrite drop_ge by lia. reflexivity.
  - destruct (changes !! j) as [c |] eqn:Hj.
    + rewrite (drop_S _ _ _ Hj). simpl. apply IH. lia.
    + apply lookup_ge_None in Hj. lia.
Qed.

(** The inner loop maps the range through the changes from index
    [start] on, oldest first. *)
Lemma remap_fold (start : nat) (tr : t) (range : Range.t) :
  remap start tr range = fold_left Range.map (drop start (changes tr)) range.
Proof. unfold remap. now apply remap_loop_fold. Qed.

Lemma reduce_loop_fold (sel : Selection.t) (start : nat)
    (f : t -> Range.t -> t) :
  forall count i tr,
    count = (List.length (Selection.ranges sel) - i)%nat ->
    reduce_loop count i sel start f tr
    = fold_left (fun acc range => f acc (remap start acc range))
        (drop i (Selection.ranges sel)) tr.
Proof.
  induction count as [| count IH]; intros i tr Hcount; simpl.
  - rewrite drop_ge by lia. reflexivity.
  - destruct (Selection.ranges sel !! i) as [range |] eqn:Hi.
    + rewrite (drop_S _ _ _ Hi). simpl. apply IH. lia.
    + apply lookup_ge_None in Hi. lia.
Qed.

End ReduceRanges.

(** C3.  [reduceRanges(f)] walks the ranges of the selection it started
    with; before [f] sees a range, the range is mapped through the changes
    the transaction has gained since the reduction began (those from the
    starting change count on).  With document "abcdef" and cursors at 0
    and 3, [replaceSelection("X")] inserts at 0 and then at 4, and the
    document becomes "XabcXdef". *)
Theorem reduceRanges_remaps_later_ranges :
  (forall (f : Transaction.t -> Range.t -> Transaction.t) (tr : Transaction.t),
      Transaction.reduceRanges f tr
      = fold_left
          (fun acc range =>
             f acc (fold_left Range.map
                      (drop (List.length (Transaction.changes tr))
                            (Transaction.changes acc))
                      range))
          (Selection.ranges (Transaction.selection tr)) tr)
  /\ exists state,
      EditorState.create two_cursors = Ok state
      /\ forall time,
          let tr := Transaction.replaceSelection "X" (Transaction.start state time) in
          Transaction.changes tr = [Change.mk 0 0 "X"; Change.mk 4 4 "X"]
          /\ Transaction.docs tr = ["Xabcdef"; "XabcXdef"]
          /\ Transaction.doc tr = "XabcXdef"
          /\ EditorState.doc (Transaction.apply tr) = "XabcXdef".
Proof.
  split.
  - intros f tr. unfold Transaction.reduceRanges.
    rewrite reduce_loop_fold by (simpl; lia).
    rewrite drop_0. apply fold_left_pointwise.
    intros acc range. now rewrite remap_fold.
  - eexists. split; [reflexivity |].
    intros time. cbv zeta. repeat split; reflexivity.
Qed.

(** * Transactions: what the builder methods preserve *)

Section BuilderInvariant.

Import Transaction.

(** A property that holds of every fresh transaction and is kept by the
    four methods that construct a transaction directly holds of every
    transaction built through the interface. *)
Variable P : t -> Prop.
Hypothesis P_start : forall state time, P (start state time).
Hypothesis P_setMeta : forall tr slot value, P tr -> P (setMeta slot value tr).
Hypothesis P_change : forall tr c, P tr -> P (change c tr).
Hypothesis P_setSelection : forall tr sel, P tr -> P (setSelection sel tr).
Hypothesis P_scrollIntoView : forall tr, P tr -> P (scrollIntoView tr).

Lemma reduce_loop_preserves (f : t -> Range.t -> t) sel start :
  (forall tr range, P tr -> P (f tr range)) ->
  forall count i tr, P tr -> P (reduce_loop count i sel start f tr).
Proof.
  intros Hf. induction count as [| count IH]; intros i tr Htr; simpl.
  - assumption.
  - destruct (Selection.ranges sel !! i); [| assumption].
    apply IH, Hf, Htr.
Qed.

Lemma reduceRanges_preserves (f : t -> Range.t -> t) (tr : t) :
  (forall tr' range, P tr' -> P (f tr' range)) ->
  P tr -> P (reduceRanges f tr).
Proof. intros Hf Htr. now apply reduce_loop_preserves. Qed.

Lemma replaceSelection_preserves (text : string) (tr : t) :
  P tr -> P (replaceSelection text tr).
Proof. intros Htr. apply reduceRanges_preserves; auto. Qed.

Lemma builds_preserves (depth : nat) :
  forall tr0 tr, builds (callback depth) tr0 tr -> P tr0 -> P tr.
Proof.
  induction depth as [| depth IHdepth]; intros tr0 tr Hbuilds H0;
    induction Hbuilds as
      [| tr slot value _ IH | tr c _ IH | tr from to text _ IH
       | tr text _ IH | tr f _ IH Hf | tr sel _ IH | tr _ IH];
    auto using replaceSelection_preserves.
  - apply P_change, IH.
  - destruct Hf.
  - apply P_change, IH.
  - apply reduceRanges_preserves; [| assumption].
    intros tr' range Htr'.
    destruct (Hf tr' range) as [Hfrom | (state & time & Hfresh)].
    + exact (IHdepth _ _ Hfrom Htr').
    + exact (IHdepth _ _ Hfresh (P_start state time)).
Qed.

Lemma reachable_preserves (tr : t) : reachable tr -> P tr.
Proof.
  intros (depth & state & time & Hbuilds).
  exact (builds_preserves depth _ _ Hbuilds (P_start state time)).
Qed.

End BuilderInvariant.

(** * Transactions: changes and documents *)

Lemma last_cons_default {A : Type} (l : list A) :
  forall x d, List.last (x :: l) d = List.last l x.
Proof.
  induction l as [| y l IH]; intros x d; [reflexivity |].
  change (List.last (x :: y :: l) d) with (List.last (y :: l) d).
  now rewrite !IH.
Qed.

Section Docs.

Import Transaction.

Lemma doc_is_last (tr : t) :
  doc tr = List.last (docs tr) (EditorState.doc (startState tr)).
Proof.
  unfold doc. destruct (docs tr) as [| d ds] using rev_ind.
  - reflexivity.
  - rewrite last_last, length_app. simpl.
    destruct (Z.ltb_spec (Z.of_nat (List.length ds + 1) - 1) 0); [lia |].
    replace (Z.to_nat (Z.of_nat (List.length ds + 1) - 1))
      with (List.length ds) by lia.
    now rewrite nth_middle.
Qed.

Lemma docs_of_length (d : Text.t) (cs : list Change.t) :
  List.length (docs_of d cs) = List.length cs.
Proof. revert d. induction cs; intros d; simpl; auto. Qed.

Lemma docs_of_snoc (d : Text.t) (cs : list Change.t) (c : Change.t) :
  docs_of d (cs ++ [c])
  = docs_of d cs ++ [Change.apply c (List.last (docs_of d cs) d)].
Proof.
  revert d. induction cs as [| c' cs IH]; intros d; [reflexivity |].
  change (docs_of d ((c' :: cs) ++ [c]))
    with (Change.apply c' d :: docs_of (Change.apply c' d) (cs ++ [c])).
  change (docs_of d (c' :: cs))
    with (Change.apply c' d :: docs_of (Change.apply c' d) cs).
  now rewrite IH, last_cons_default.
Qed.

(** [docs_of] entry by entry: the [i]-th document is the [i]-th change
    applied to the document before it. *)
Lemma docs_of_lookup (d : Text.t) (cs : list Change.t) (i : nat) (c : Change.t) :
  cs !! i = Some c ->
  docs_of d cs !! i
  = Some (Change.apply c
            (match i with
             | O => d
             | S j => nth j (docs_of d cs) d
             end)).
Proof.
  revert d i. induction cs as [| c' cs IH]; intros d i Hi; [discriminate |].
  destruct i as [| i]; simpl in *.
  - now inversion Hi.
  - rewrite (IH _ _ Hi). destruct i as [| i]; [reflexivity |].
    do 2 f_equal. apply nth_indep.
    rewrite docs_of_length. apply lookup_lt_Some in Hi. lia.
Qed.

Lemma change_cases (c : Change.t) (tr : t) :
  change c tr = tr
  \/ change c tr
     = mk (startState tr) (changes tr ++ [c])
          (docs tr ++ [Change.apply c (doc tr)])
          (Selection.map (selection tr) c) (meta tr) (flags tr).
Proof.
  unfold change.
  destruct ((Change.from c =? Change.to c) && String.eqb (Change.text c) "");
    auto.
Qed.

Lemma docs_follow_changes_reachable (tr : t) :
  reachable tr -> docs_follow_changes tr.
Proof.
  apply reachable_preserves; unfold docs_follow_changes; simpl; auto.
  intros tr' c H.
  destruct (change_cases c tr') as [-> | ->]; [assumption | simpl].
  rewrite docs_of_snoc, <- H. now rewrite doc_is_last.
Qed.

Lemma doc_without_changes (tr : t) :
  reachable tr -> changes tr = [] ->
  doc tr = EditorState.doc (startState tr).
Proof.
  intros Hreach Hnone.
  pose proof (docs_follow_changes_reachable tr Hreach) as Hdocs.
  unfold docs_follow_changes in Hdocs.
  now rewrite doc_is_last, Hdocs, Hnone.
Qed.

End Docs.

(** C9.  A transaction built from [Transaction.start] by builder methods
    has one document per change, the [i]-th being [changes[i]] applied to
    the document before it (the start document for [i = 0]), and its [doc]
    is the last of them, or the start state's document when there is no
    change. *)
Theorem docs_match_changes (tr : Transaction.t) :
  Transaction.reachable tr ->
  let start_doc := EditorState.doc (Transaction.startState tr) in
  List.length (Transaction.docs tr) = List.length (Transaction.changes tr)
  /\ (forall (i : nat) (c : Change.t),
        Transaction.changes tr !! i = Some c ->
        Transaction.docs tr !! i
        = Some (Change.apply c
                  (match i with
                   | O => start_doc
                   | S j => nth j (Transaction.docs tr) start_doc
                   end)))
  /\ Transaction.doc tr = List.last (Transaction.docs tr) start_doc
  /\ (Transaction.changes tr = [] -> Transaction.doc tr = start_doc).
Proof.
  intros Hreach. cbv zeta.
  pose proof (docs_follow_changes_reachable tr Hreach) as Hdocs.
  unfold Transaction.docs_follow_changes in Hdocs.
  split; [| split; [| split]].
  - rewrite Hdocs. apply docs_of_length.
  - intros i c Hi. rewrite Hdocs at 1.
    rewrite (docs_of_lookup _ _ _ _ Hi). now rewrite <- Hdocs.
  - apply doc_is_last.
  - now apply doc_without_changes.
Qed.

Lemma docs_match_changes_witness :
  let tr := Transaction.replace 0 5 "hi" (Transaction.start hello_state 0) in
  Transaction.docs tr = ["hi"]
  /\ Transaction.doc tr = List.last (Transaction.docs tr) "hello"
  /\ Transaction.selection tr = Selection.mk [Range.cursor 2].
Proof.
  cbv zeta.
  assert (Hreach : Transaction.reachable
            (Transaction.replace 0 5 "hi" (Transaction.start hello_state 0))).
  { exists 0%nat, hello_state, 0.
    apply Transaction.builds_replace, Transaction.builds_refl. }
  destruct (docs_match_changes _ Hreach) as (_ & _ & Hdoc & _).
  split; [reflexivity |]. split; [exact Hdoc | reflexivity].
Defined.

(** * Transactions: the explicit-selection flag *)

Lemma flag_selection_raised (flags : Z) :
  Z.land (Z.lor flags Transaction.FLAG_SELECTION_SET)
    Transaction.FLAG_SELECTION_SET = 1.
Proof.
  unfold Transaction.FLAG_SELECTION_SET.
  rewrite Z.land_lor_distr_l.
  change 1 with (Z.ones 1) at 1 2. rewrite Z.land_ones by lia.
  change (Z.land (Z.ones 1) (Z.ones 1)) with 1. change (2 ^ 1) with 2.
  destruct (Z.mod_pos_bound flags 2 ltac:(lia)) as [Hlo Hhi].
  assert (Hcases : flags mod 2 = 0 \/ flags mod 2 = 1) by lia.
  destruct Hcases as [-> | ->]; reflexivity.
Qed.

Lemma flag_scroll_keeps_selection_bit (flags : Z) :
  Z.land (Z.lor flags Transaction.FLAG_SCROLL_INTO_VIEW)
    Transaction.FLAG_SELECTION_SET
  = Z.land flags Transaction.FLAG_SELECTION_SET.
Proof.
  unfold Transaction.FLAG_SCROLL_INTO_VIEW, Transaction.FLAG_SELECTION_SET.
  rewrite Z.land_lor_distr_l. change (Z.land 2 1) with 0.
  apply Z.lor_0_r.
Qed.

Lemma selection_follows_reachable (tr : Transaction.t) :
  Transaction.reachable tr -> Transaction.selection_follows tr.
Proof.
  apply reachable_preserves; unfold Transaction.selection_follows.
  - reflexivity.
  - intros tr' slot value Hsel. exact Hsel.
  - intros tr' c Hsel.
    destruct (change_cases c tr') as [-> | ->]; [assumption |].
    unfold Transaction.selectionSet. simpl. intros Hflag.
    rewrite fold_left_app. simpl. now rewrite <- Hsel.
  - intros tr' sel _.
    unfold Transaction.selectionSet, Transaction.setSelection. simpl.
    rewrite flag_selection_raised. discriminate.
  - intros tr' Hsel.
    unfold Transaction.selectionSet, Transaction.scrollIntoView. simpl.
    rewrite flag_scroll_keeps_selection_bit. exact Hsel.
Qed.

(** * Transactions: [apply] *)

Section Apply.

Import Transaction.

Variable tr : t.

Lemma apply_loop_frame (fields : list StateField.t) :
  forall newState,
    EditorState.config (apply_loop fields tr newState) = EditorState.config newState
    /\ EditorState.doc (apply_loop fields tr newState) = EditorState.doc newState
    /\ EditorState.selection (apply_loop fields tr newState)
       = EditorState.selection newState.
Proof.
  induction fields as [| field rest IH]; intros newState; simpl.
  - auto.
  - destruct (IH (EditorState.set newState (StateField.key field)
                    (StateField.apply field (view tr)
                       (property (EditorState.slots (startState tr))
                          (StateField.key field))
                       (EditorState.view newState)))) as (Hc & Hd & Hs).
    now rewrite Hc, Hd, Hs.
Qed.

(** The loop run over the first fields and then over the rest. *)
Lemma apply_loop_app (fields rest : list StateField.t) :
  forall newState,
    apply_loop (fields ++ rest) tr newState
    = apply_loop rest tr (apply_loop fields tr newState).
Proof.
  induction fields as [| field fields IH]; intros newState; simpl; auto.
Qed.

(** The recorded calls are the calls of the loop: replaying their
    results gives the state [apply_loop] returns. *)
Lemma apply_loop_replays_calls (fields : list StateField.t) :
  forall newState,
    apply_loop fields tr newState
    = fold_left
        (fun state c =>
           EditorState.set state (StateField.key (callee c)) (call_result c))
        (calls_loop fields tr newState) newState.
Proof.
  induction fields as [| field rest IH]; intros newState; simpl; auto.
Qed.

Lemma calls_loop_arguments (fields : list StateField.t) :
  forall newState,
    List.map (fun c => (callee c, arg_tr c, arg_value c))
      (calls_loop fields tr newState)
    = List.map
        (fun field =>
           (field, view tr, EditorState.getField (startState tr) field))
        fields.
Proof.
  induction fields as [| field rest IH]; intros newState; simpl.
  - reflexivity.
  - now rewrite IH.
Qed.

(** The state a call is handed is the state the loop has produced from
    the fields before it. *)
Lemma calls_loop_newState (fields : list StateField.t) :
  forall newState (i : nat) (c : call),
    calls_loop fields tr newState !! i = Some c ->
    arg_newState c
    = EditorState.view (apply_loop (take i fields) tr newState).
Proof.
  induction fields as [| field rest IH]; intros newState i c Hi;
    [discriminate |].
  destruct i as [| i]; simpl in *.
  - now inversion Hi.
  - now apply IH.
Qed.

Lemma apply_loop_filled (fields : list StateField.t) :
  forall newState,
    dom (EditorState.slots (apply_loop fields tr newState))
    = dom (EditorState.slots newState)
        ∪ list_to_set (List.map StateField.key fields).
Proof.
  induction fields as [| field rest IH]; intros newState; simpl.
  - now rewrite (right_id_L ∅ (∪)).
  - rewrite IH. simpl. rewrite dom_insert_L.
    now rewrite (comm_L (∪) {[StateField.key field]}), (assoc_L (∪)).
Qed.

End Apply.

Section ApplyOrder.

Import Transaction.

Variable tr : t.

Lemma calls_loop_callees (fields : list StateField.t) :
  forall newState, List.map callee (calls_loop fields tr newState) = fields.
Proof.
  induction fields as [| field rest IH]; intros newState; simpl.
  - reflexivity.
  - now rewrite IH.
Qed.

Lemma calls_loop_lookup (fields : list StateField.t) :
  forall newState (i : nat) (c : call),
    calls_loop fields tr newState !! i = Some c ->
    fields !! i = Some (callee c)
    /\ arg_tr c = view tr
    /\ arg_value c = EditorState.getField (startState tr) (callee c).
Proof.
  induction fields as [| field rest IH]; intros newState i c Hi;
    [discriminate |].
  destruct i as [| i]; simpl in *.
  - inversion Hi. subst c. simpl. auto.
  - now apply IH in Hi.
Qed.

(** Fields that are not run leave their slot as it was. *)
Lemma apply_loop_untouched (fields : list StateField.t) (key : string) :
  key ∉ List.map StateField.key fields ->
  forall newState,
    EditorState.slots (apply_loop fields tr newState) !! key
    = EditorState.slots newState !! key.
Proof.
  induction fields as [| field rest IH]; intros Hnot newState; simpl.
  - reflexivity.
  - simpl in Hnot. apply not_elem_of_cons in Hnot as [Hne Hrest].
    rewrite (IH Hrest). simpl. now apply lookup_insert_ne.
Qed.

(** After the loop, the slot of a field that ran last under its key
    holds what its call returned. *)
Lemma apply_loop_stored (before after : list StateField.t) (field : StateField.t) :
  StateField.key field ∉ List.map StateField.key after ->
  forall newState,
    EditorState.slots (apply_loop (before ++ field :: after) tr newState)
      !! StateField.key field
    = Some (StateField.apply field (view tr)
              (EditorState.getField (startState tr) field)
              (EditorState.view (apply_loop before tr newState))).
Proof.
  intros Hnot newState. rewrite apply_loop_app. simpl.
  rewrite (apply_loop_untouched after _ Hnot). simpl.
  apply lookup_insert_eq.
Qed.

End ApplyOrder.

(** C8.  Applying a transaction that was built without any change and
    without [setSelection] gives a state with the start state's document
    and selection (and configuration), and [apply] still runs every
    field's rule: the state it returns is the fresh state with the result
    of each call stored under the called field's key, where the calls are
    one per entry of the configuration's field list, in order, with the
    transaction and the field's value in the start state; under a
    configuration made by the constructor no field is called twice, and
    the slot of the [i]-th field of the state [apply] returns holds the
    field's [apply] rule run on the transaction, the old value and the
    state that the fields before it have filled. *)
Theorem apply_without_changes (tr : Transaction.t) :
  Transaction.reachable tr ->
  Transaction.changes tr = [] ->
  Transaction.selectionSet tr = false ->
  let start := Transaction.startState tr in
  let conf := EditorState.config start in
  let fields := Configuration.fields conf in
  let fresh :=
    EditorState.new conf (EditorState.doc start)
      (Some (EditorState.selection start)) in
  EditorState.doc (Transaction.apply tr) = EditorState.doc start
  /\ EditorState.selection (Transaction.apply tr) = EditorState.selection start
  /\ EditorState.config (Transaction.apply tr) = conf
  /\ Transaction.apply tr
     = fold_left
         (fun state c =>
            EditorState.set state (StateField.key (Transaction.callee c))
              (StateField.apply (Transaction.callee c) (Transaction.arg_tr c)
                 (Transaction.arg_value c) (Transaction.arg_newState c)))
         (Transaction.apply_calls tr) fresh
  /\ List.map
       (fun c => (Transaction.callee c, Transaction.arg_tr c,
                  Transaction.arg_value c))
       (Transaction.apply_calls tr)
     = List.map
         (fun field =>
            (field, Transaction.view tr, EditorState.getField start field))
         fields
  /\ (forall plugins,
        Configuration.new plugins = Ok conf ->
        NoDup (List.map (fun c => StateField.key (Transaction.callee c))
                 (Transaction.apply_calls tr))
        /\ forall (i : nat) (field : StateField.t),
            fields !! i = Some field ->
            EditorState.slots (Transaction.apply tr) !! StateField.key field
            = Some (StateField.apply field (Transaction.view tr)
                      (EditorState.getField start field)
                      (EditorState.view
                         (Transaction.apply_loop (take i fields) tr fresh)))).
Proof.
  intros Hreach Hchanges Hflag. cbv zeta.
  pose proof (doc_without_changes tr Hreach Hchanges) as Hdoc.
  pose proof (selection_follows_reachable tr Hreach Hflag) as Hsel.
  rewrite Hchanges in Hsel. simpl in Hsel.
  unfold Transaction.apply, Transaction.apply_calls.
  rewrite Hdoc, Hsel.
  set (conf := EditorState.config (Transaction.startState tr)).
  set (fields := Configuration.fields conf).
  set (fresh := EditorState.new conf
                  (EditorState.doc (Transaction.startState tr))
                  (Some (EditorState.selection (Transaction.startState tr)))).
  destruct (apply_loop_frame tr fields fresh) as (Hc & Hd & Hsl).
  split; [exact Hd |]. split; [exact Hsl |]. split; [exact Hc |].
  split; [apply apply_loop_replays_calls |].
  split; [apply calls_loop_arguments |].
  intros plugins Hnew. apply new_fields_once in Hnew. fold fields in Hnew.
  split.
  - rewrite <- (map_map Transaction.callee StateField.key).
    now rewrite calls_loop_callees.
  - intros i field Hi.
    pose proof (take_drop_middle _ _ _ Hi) as Hsplit.
    assert (Hlast : StateField.key field
                    ∉ List.map StateField.key (drop (S i) fields)).
    { rewrite <- Hsplit, map_app in Hnew.
      apply NoDup_app in Hnew as (_ & _ & Hnew).
      simpl in Hnew. now apply NoDup_cons in Hnew as [? _]. }
    rewrite <- Hsplit at 1.
    apply (apply_loop_stored tr _ _ _ Hlast).
Qed.


(** C4, as the code has it.  [apply] calls the fields' [apply] rules in
    the configuration's field order, each with the transaction and the
    field's value in the start state; the third argument is the new state
    under construction.  It has the transaction's document and selection,
    and its slots are those of the fields earlier in the order, which hold
    what their calls returned: a field sees the new value of every field
    before it and of none after it. *)
Theorem apply_runs_fields_in_order (tr : Transaction.t) :
  let conf := EditorState.config (Transaction.startState tr) in
  let fields := Configuration.fields conf in
  let fresh :=
    EditorState.new conf (Transaction.doc tr) (Some (Transaction.selection tr)) in
  List.map Transaction.callee (Transaction.apply_calls tr) = fields
  /\ forall (i : nat) (c : Transaction.call),
      Transaction.apply_calls tr !! i = Some c ->
      Transaction.arg_tr c = Transaction.view tr
      /\ Transaction.arg_value c
         = EditorState.getField (Transaction.startState tr) (Transaction.callee c)
      /\ Transaction.arg_newState c
         = EditorState.view (Transaction.apply_loop (take i fields) tr fresh)
      /\ StateView.doc (Transaction.arg_newState c) = Transaction.doc tr
      /\ StateView.selection (Transaction.arg_newState c)
         = Transaction.selection tr
      /\ dom (StateView.slots (Transaction.arg_newState c))
         = list_to_set (List.map StateField.key (take i fields))
      /\ (NoDup (List.map StateField.key fields) ->
          forall (j : nat) (earlier : Transaction.call),
            (j < i)%nat ->
            Transaction.apply_calls tr !! j = Some earlier ->
            StateView.slots (Transaction.arg_newState c)
              !! StateField.key (Transaction.callee earlier)
            = Some (Transaction.call_result earlier)).
Proof.
  cbv zeta. unfold Transaction.apply_calls.
  set (conf := EditorState.config (Transaction.startState tr)).
  set (fields := Configuration.fields conf).
  set (fresh := EditorState.new conf (Transaction.doc tr)
                  (Some (Transaction.selection tr))).
  split; [apply calls_loop_callees |].
  intros i c Hi.
  destruct (calls_loop_lookup tr fields fresh i c Hi) as (Hfield & Htr & Hvalue).
  pose proof (calls_loop_newState tr fields fresh i c Hi) as Hnew.
  destruct (apply_loop_frame tr (take i fields) fresh) as (_ & Hdoc & Hsel).
  repeat split; try assumption.
  - rewrite Hnew. simpl. now rewrite Hdoc.
  - rewrite Hnew. simpl. now rewrite Hsel.
  - rewrite Hnew. simpl. rewrite apply_loop_filled. simpl.
    rewrite dom_empty_L. now rewrite (left_id_L ∅ (∪)).
  - intros Hnodup j earlier Hlt Hj.
    destruct (calls_loop_lookup tr fields fresh j earlier Hj)
      as (Hfield' & Htr' & Hvalue').
    pose proof (calls_loop_newState tr fields fresh j earlier Hj) as Hnew'.
    assert (Htaken : take i fields !! j = Some (Transaction.callee earlier))
      by (now rewrite lookup_take_lt).
    pose proof (take_drop_middle _ _ _ Htaken) as Hsplit.
    rewrite take_take, Nat.min_l in Hsplit by lia.
    assert (Hlast : StateField.key (Transaction.callee earlier)
                    ∉ List.map StateField.key (drop (S j) (take i fields))).
    { assert (Hsub : NoDup (List.map StateField.key (take i fields))).
      { rewrite <- (take_drop i fields) in Hnodup.
        rewrite map_app in Hnodup. now apply NoDup_app in Hnodup as [? _]. }
      rewrite <- Hsplit, map_app in Hsub.
      apply NoDup_app in Hsub as (_ & _ & Hsub).
      simpl in Hsub. now apply NoDup_cons in Hsub as [? _]. }
    rewrite Hnew. simpl. rewrite <- Hsplit.
    rewrite (apply_loop_stored tr _ _ _ Hlast).
    unfold Transaction.call_result. now rewrite Htr', Hvalue', Hnew'.
Qed.

(** The two example fields are what the constructor returns, and carry
    the keys it draws for them. *)
Lemma example_fields_constructed :
  (StateField.new counter_spec ∅).1 = counter_field
  /\ (StateField.new mirror_spec (StateField.new counter_spec ∅).2).1
     = mirror_field
  /\ StateField.key counter_field = "$counter"
  /\ StateField.key mirror_field = "$mirror".
Proof. repeat split; vm_compute; reflexivity. Qed.

Lemma two_fields_created : EditorState.create two_fields = Ok two_fields_state.
Proof. reflexivity. Qed.

(** C4 as stated fails: with the counter before the mirror, the state the
    mirror's rule is handed already holds the counter's new value [1] (its
    value in the start state is [0]), and the mirror's new value is
    computed from it. *)
Lemma later_field_sees_new_value :
  let tr := Transaction.start two_fields_state 0 in
  ~ Transaction.sees_no_new_value tr
  /\ EditorState.getField (Transaction.startState tr) counter_field = number 0
  /\ EditorState.getField (Transaction.apply tr) counter_field = number 1
  /\ EditorState.getField (Transaction.apply tr) mirror_field = number 1.
Proof.
  cbv zeta. split; [| repeat split; reflexivity].
  intros Hclaim.
  assert (Hcall : exists c,
             Transaction.apply_calls (Transaction.start two_fields_state 0) !! 1%nat
             = Some c
             /\ Transaction.callee c = mirror_field
             /\ StateView.slots (Transaction.arg_newState c)
                  !! StateField.key counter_field
                = Some (number 1)).
  { eexists. split; [reflexivity |]. split; reflexivity. }
  destruct Hcall as (c & Hlookup & Hcallee & Hseen).
  specialize (Hclaim c counter_field).
  rewrite Hclaim in Hseen; [discriminate | | |].
  - apply list_elem_of_lookup. now exists 1%nat.
  - apply list_elem_of_here.
  - rewrite Hcallee. discriminate.
Qed.

Lemma apply_without_changes_witness :
  let tr := Transaction.scrollIntoView (Transaction.start two_fields_state 7) in
  EditorState.doc (Transaction.apply tr) = "ab"
  /\ EditorState.selection (Transaction.apply tr) = Selection.default
  /\ List.map Transaction.callee (Transaction.apply_calls tr)
     = [counter_field; mirror_field]
  /\ EditorState.slots (Transaction.apply tr) !! StateField.key counter_field
     = Some (number 1)
  /\ EditorState.slots (Transaction.apply tr) !! StateField.key mirror_field
     = Some (number 1).
Proof.
  cbv zeta.
  destruct (apply_without_changes
              (Transaction.scrollIntoView (Transaction.start two_fields_state 7)))
    as (Hdoc & Hsel & _ & _ & Hcalls & Hslots).
  - exists 0%nat, two_fields_state, 7.
    apply Transaction.builds_scrollIntoView, Transaction.builds_refl.
  - reflexivity.
  - reflexivity.
  - destruct (Hslots (default [] (EditorState.cfg_plugins two_fields)) eq_refl)
      as [_ Hslot].
    split; [exact Hdoc |]. split; [exact Hsel |]. split.
    + apply (f_equal (List.map (fun x => fst (fst x)))) in Hcalls.
      rewrite !map_map in Hcalls. exact Hcalls.
    + split.
      * exact (Hslot 0%nat counter_field eq_refl).
      * exact (Hslot 1%nat mirror_field eq_refl).
Defined.

(** * The facet-era state: selections must fit the document *)

Section FacetState.

Context {Configuration DynamicSlot SlotStatus Extension Transaction : Type}.
Variable dynamicSlots : Configuration -> list DynamicSlot.
Variable Uninitialized : SlotStatus.

#[local] Abbreviation new :=
  (Facets.new (Transaction := Transaction) dynamicSlots Uninitialized).

Lemma check_ranges_fits (ranges : list Range.t) (doc : Text.t) :
  Forall (fun range => Range.to range <= Text.length doc) ranges ->
  Facets.check_ranges ranges doc = Ok tt.
Proof.
  induction 1 as [| range rest Hfit _ IH]; simpl; [reflexivity |].
  destruct (Z.gtb_spec (Range.to range) (Text.length doc)); [lia | exact IH].
Qed.

Lemma check_ranges_outside (ranges : list Range.t) (doc : Text.t) :
  Exists (fun range => Range.to range > Text.length doc) ranges ->
  Facets.check_ranges ranges doc = Throw Facets.out_of_document.
Proof.
  induction 1 as [range rest Hout | range rest _ IH]; simpl.
  - destruct (Z.gtb_spec (Range.to range) (Text.length doc)); [reflexivity | lia].
  - destruct (Range.to range >? Text.length doc); [reflexivity | exact IH].
Qed.

(** C7.  The constructor throws a [RangeError] as soon as one selection
    range ends past the document, and returns the state when every range
    ends within it.  On the document "ab" the range (0,2) is accepted
    and the range (0,5) is refused. *)
Theorem selection_must_fit_document :
  (forall config doc selection values,
      Exists (fun range => Range.to range > Text.length doc)
        (Selection.ranges selection) ->
      new config doc selection values
      = Throw (RangeError "Selection points outside of document"))
  /\ (forall config doc selection values,
        Forall (fun range => Range.to range <= Text.length doc)
          (Selection.ranges selection) ->
        exists state,
          new config doc selection values = Ok state
          /\ Facets.doc state = doc
          /\ Facets.selection state = selection)
  /\ (forall config,
        succeeds
          (new config (Text.create "ab") (Selection.mk [Range.mk 0 2]) None))
  /\ (forall config,
        new config (Text.create "ab") (Selection.mk [Range.mk 0 5]) None
        = Throw (RangeError "Selection points outside of document")).
Proof.
  unfold Facets.new. repeat split.
  - intros config doc selection values Hout.
    now rewrite (check_ranges_outside _ _ Hout).
  - intros config doc selection values Hfit.
    rewrite (check_ranges_fits _ _ Hfit). simpl. eauto.
  - intros config. eexists. reflexivity.
Qed.

Variable resolve : Extension -> result Configuration.
Variable noExtensions : Extension.
Variable lineSeparator : Configuration -> option string.
Variable allowMultipleSelections : Configuration -> bool.
Variable split : string -> string -> list string.
Variable initState :
  Facets.t Configuration SlotStatus Transaction -> option Transaction ->
  result (Facets.t Configuration SlotStatus Transaction).

#[local] Abbreviation create :=
  (Facets.create dynamicSlots Uninitialized resolve noExtensions
     lineSeparator allowMultipleSelections split initState).

(** [create] reaches the constructor with the document built from the
    string and the selection it was given (one cursor at 0 by default):
    whatever the extensions resolve to, as long as no line separator is
    configured, the range (0,5) on "ab" is refused before any field is
    initialised, and the range (0,2) goes on to [initState]. *)
Lemma create_checks_selection (configuration : Configuration) :
  resolve noExtensions = Ok configuration ->
  lineSeparator configuration = None ->
  let fresh selection :=
    Facets.mk configuration "ab" selection
      (List.map (fun _ => null) (dynamicSlots configuration))
      (List.map (fun _ => Uninitialized) (dynamicSlots configuration))
      None in
  create (Facets.mkConfig (Some (EditorState.fromString "ab"))
            (Some (Selection.mk [Range.mk 0 5])) None)
  = Throw (RangeError "Selection points outside of document")
  /\ create (Facets.mkConfig (Some (EditorState.fromString "ab"))
               (Some (Selection.mk [Range.mk 0 2])) None)
     = initState (fresh (Selection.mk [Range.mk 0 2])) None
  /\ create (Facets.mkConfig (Some (EditorState.fromString "ab")) None None)
     = initState (fresh (Selection.mk [Range.cursor 0])) None.
Proof.
  intros Hresolve Hsep. unfold Facets.create, Facets.split_doc.
  simpl. rewrite Hresolve. simpl. rewrite Hsep.
  destruct (allowMultipleSelections configuration); repeat split.
Qed.

End FacetState.

(** * The earlier EditorState takes its selection as given *)

(** The constructor of the earlier file has no check of its own: without
    plugins, [create] returns the state with the document and selection
    it was asked for, also when the selection ends past the document. *)
Lemma create_without_plugins (doc : string) (selection : Selection.t) :
  EditorState.create
    (EditorState.mkConfig (Some (EditorState.fromString doc)) (Some selection) None)
  = Ok (EditorState.mk (Configuration.mk [] []) doc selection ∅).
Proof. reflexivity. Qed.

(** * Further properties of position mapping *)

(** Only the sign of the bias matters to [mapPos]. *)
Theorem mapPos_bias_sign (c : Change.t) (pos bias bias' : Z) :
  (bias < 0 <-> bias' < 0) ->
  Change.mapPos c pos bias = Change.mapPos c pos bias'.
Proof.
  intros Hsign. unfold Change.mapPos. split_compare; lia.
Qed.

Lemma mapPos_bias_sign_witness :
  Change.mapPos (Change.mk 2 4 "xyz") 3 7 = Change.mapPos (Change.mk 2 4 "xyz") 3 0.
Proof. apply mapPos_bias_sign. lia. Defined.

(** For a change with [from <= to], a mapped position never lands
    strictly inside the replacement text: it is at most [from] or at
    least [from + text.length]. *)
Theorem mapPos_avoids_replacement (c : Change.t) (pos bias : Z) :
  Change.from c <= Change.to c ->
  Change.mapPos c pos bias <= Change.from c
  \/ Change.from c + strlen (Change.text c) <= Change.mapPos c pos bias.
Proof.
  intros Hft. unfold Change.mapPos. split_compare; lia.
Qed.

Lemma mapPos_avoids_replacement_witness :
  Change.mapPos (Change.mk 2 6 "xyz") 4 1 <= 2
  \/ 2 + strlen "xyz" <= Change.mapPos (Change.mk 2 6 "xyz") 4 1.
Proof.
  apply (mapPos_avoids_replacement (Change.mk 2 6 "xyz") 4 1). simpl. lia.
Defined.

Lemma strlen_nonneg (s : string) : 0 <= strlen s.
Proof. unfold strlen. lia. Qed.

(** For a change with [from <= to], [mapPos] keeps the order of
    positions under any one bias. *)
Lemma mapPos_monotone (c : Change.t) (pos pos' bias : Z) :
  Change.from c <= Change.to c -> pos <= pos' ->
  Change.mapPos c pos bias <= Change.mapPos c pos' bias.
Proof.
  intros Hft Hle. pose proof (strlen_nonneg (Change.text c)).
  unfold Change.mapPos. split_compare; lia.
Qed.

(** Mapping a range through a change with [from <= to] maps its two
    ends in order: the lower end of the mapped range is the mapped lower
    end, and likewise the upper end, whichever way the range points. *)
Theorem Range_map_keeps_orientation (r : Range.t) (c : Change.t) :
  Change.from c <= Change.to c ->
  Range.from (Range.map r c) = Change.mapPos_default c (Range.from r)
  /\ Range.to (Range.map r c) = Change.mapPos_default c (Range.to r).
Proof.
  intros Hft. rewrite Range_map_ends. unfold Range.from, Range.to. simpl.
  destruct (Z.le_ge_cases (Range.anchor r) (Range.head r)) as [Hle | Hle].
  - pose proof (mapPos_monotone c _ _ 1 Hft Hle) as Hmono.
    unfold Change.mapPos_default.
    rewrite !Z.min_l, !Z.max_r by assumption. auto.
  - pose proof (mapPos_monotone c _ _ 1 Hft Hle) as Hmono.
    unfold Change.mapPos_default.
    rewrite !Z.min_r, !Z.max_l by assumption. auto.
Qed.

Lemma Range_map_keeps_orientation_witness :
  Range.from (Range.map (Range.mk 7 1) (Change.mk 2 4 "x")) = 1
  /\ Range.to (Range.map (Range.mk 7 1) (Change.mk 2 4 "x")) = 6.
Proof.
  destruct (Range_map_keeps_orientation (Range.mk 7 1) (Change.mk 2 4 "x"))
    as [Hfrom Hto]; [simpl; lia |].
  rewrite Hfrom, Hto. split; reflexivity.
Defined.

(** A cursor stays a cursor under every change, and mapping a selection
    keeps the number of its ranges. *)
Theorem map_keeps_shape :
  (forall (r : Range.t) (c : Change.t),
      Range.empty r = true -> Range.empty (Range.map r c) = true)
  /\ (forall (s : Selection.t) (c : Change.t),
        List.length (Selection.ranges (Selection.map s c))
        = List.length (Selection.ranges s)).
Proof.
  split.
  - intros r c Hempty. rewrite Range_map_ends. unfold Range.empty in *. simpl.
    apply Z.eqb_eq in Hempty. rewrite Hempty. apply Z.eqb_refl.
  - intros s c. unfold Selection.map. simpl. apply length_map.
Qed.

(** * Equality of ranges and selections *)

Lemma Range_eq_spec (r other : Range.t) : Range.eq r other = true <-> r = other.
Proof.
  unfold Range.eq. destruct r as [a h], other as [a' h']. simpl.
  rewrite andb_true_iff, !Z.eqb_eq. split.
  - intros [-> ->]. reflexivity.
  - intros H. inversion H. auto.
Qed.

Lemma eq_from_spec (rs others : list Range.t) :
  List.length rs = List.length others ->
  Selection.eq_from rs others = true <-> rs = others.
Proof.
  revert others. induction rs as [| r rs IH]; intros [| o others] Hlen;
    simpl in *; try discriminate.
  - split; reflexivity.
  - destruct (Range.eq r o) eqn:Heq; simpl.
    + apply Range_eq_spec in Heq. subst o. rewrite IH by lia.
      split; [intros -> | intros H; inversion H]; reflexivity.
    + split; [discriminate |]. intros H. inversion H. subst o.
      assert (Hrefl : Range.eq r r = true) by now apply Range_eq_spec.
      congruence.
Qed.

(** [Range.eq] and [Selection.eq] answer [true] exactly on equal values:
    the same anchor and head, and the same ranges in the same order;
    selections of different lengths are never equal. *)
Theorem eq_is_structural :
  (forall r other : Range.t, Range.eq r other = true <-> r = other)
  /\ (forall s other : Selection.t, Selection.eq s other = true <-> s = other).
Proof.
  split; [exact Range_eq_spec |].
  intros [rs] [others]. unfold Selection.eq. simpl.
  destruct (Nat.eqb_spec (List.length rs) (List.length others)) as [Hlen | Hlen];
    simpl.
  - rewrite (eq_from_spec _ _ Hlen). split; [intros -> | intros H; inversion H];
      reflexivity.
  - split; [discriminate |]. intros H. inversion H. subst. contradiction.
Qed.

(** * Documents under a change and its inverse *)

Lemma append_cons (ch : ascii) (a b : string) :
  String ch a +:+ b = String ch (a +:+ b).
Proof. reflexivity. Qed.

Lemma append_nil (b : string) : "" +:+ b = b.
Proof. reflexivity. Qed.

Lemma length_append (a b : string) :
  String.length (a +:+ b) = (String.length a + String.length b)%nat.
Proof.
  induction a as [| ch a IH]; [reflexivity |].
  rewrite append_cons. simpl. now rewrite IH.
Qed.

Lemma append_assoc (a b c : string) : (a +:+ b) +:+ c = a +:+ (b +:+ c).
Proof.
  induction a as [| ch a IH]; [reflexivity |].
  now rewrite !append_cons, IH.
Qed.

Lemma append_empty (a : string) : a +:+ "" = a.
Proof.
  induction a as [| ch a IH]; [reflexivity |].
  now rewrite append_cons, IH.
Qed.

Lemma substring_prefix (a b : string) :
  substring 0 (String.length a) (a +:+ b) = a.
Proof.
  induction a as [| ch a IH].
  - rewrite append_nil. apply substring_nothing.
  - rewrite append_cons. simpl. now rewrite IH.
Qed.

Lemma substring_whole (s : string) : substring 0 (String.length s) s = s.
Proof. rewrite <- (append_empty s) at 2. apply substring_prefix. Qed.

Lemma substring_past_prefix (a b : string) (j n : nat) :
  substring (String.length a + j) n (a +:+ b) = substring j n b.
Proof.
  induction a as [| ch a IH]; [reflexivity |].
  rewrite append_cons. simpl. exact IH.
Qed.

Lemma substring_splits (s : string) (n : nat) :
  (n <= String.length s)%nat ->
  s = substring 0 n s +:+ substring n (String.length s - n) s.
Proof.
  revert n. induction s as [| ch s IH]; intros [| n] Hn; simpl in *;
    try reflexivity; try lia.
  - rewrite append_nil. f_equal. symmetry. apply substring_whole.
  - rewrite append_cons. f_equal. apply IH. lia.
Qed.

(** A document the change addresses falls into the part before the
    replaced interval, the interval, and the part after it. *)
Lemma valid_splits_document (c : Change.t) (doc : Text.t) :
  Change.valid c doc ->
  exists before replaced after : string,
    doc = before +:+ replaced +:+ after
    /\ strlen before = Change.from c
    /\ strlen replaced = Change.to c - Change.from c.
Proof.
  intros (H0 & Hft & Hlen). unfold Text.length, strlen in *.
  set (f := Z.to_nat (Change.from c)).
  set (rest := substring f (String.length doc - f) doc).
  assert (Hdoc : doc = substring 0 f doc +:+ rest)
    by (apply substring_splits; lia).
  assert (Hrest_len : String.length rest = (String.length doc - f)%nat)
    by (apply length_substring; lia).
  set (k := (Z.to_nat (Change.to c) - f)%nat).
  exists (substring 0 f doc), (substring 0 k rest),
         (substring k (String.length rest - k) rest).
  split; [| split].
  - rewrite <- (substring_splits rest k) by lia. exact Hdoc.
  - rewrite length_substring by lia. lia.
  - rewrite length_substring by lia. lia.
Qed.

Lemma replace_middle (before replaced after text : string) :
  Text.replace (before +:+ replaced +:+ after) (strlen before)
    (strlen before + strlen replaced) text
  = before +:+ text +:+ after.
Proof.
  unfold Text.replace, strlen.
  rewrite Nat2Z.id, <- Nat2Z.inj_add, Nat2Z.id.
  rewrite substring_prefix. do 2 f_equal.
  rewrite <- append_assoc.
  rewrite <- (Nat.add_0_r (String.length before + String.length replaced)).
  rewrite <- length_append at 1.
  rewrite substring_past_prefix, !length_append.
  replace (String.length before + String.length replaced + String.length after
           - (String.length before + String.length replaced + 0))%nat
    with (String.length after) by lia.
  apply substring_whole.
Qed.

Lemma slice_middle (before replaced after : string) :
  Text.slice (before +:+ replaced +:+ after) (strlen before)
    (strlen before + strlen replaced)
  = replaced.
Proof.
  unfold Text.slice, strlen.
  rewrite Nat2Z.id, <- Nat2Z.inj_add, Nat2Z.id.
  rewrite <- (Nat.add_0_r (String.length before)) at 1.
  rewrite substring_past_prefix.
  replace (String.length before + String.length replaced
           - String.length before)%nat
    with (String.length replaced) by lia.
  apply substring_prefix.
Qed.

(** Applying a change to a document it addresses and then the inverse
    computed against that document gives the document back, and inverting
    the inverse against the changed document gives the change back. *)
Theorem invert_undoes_apply (c : Change.t) (doc : Text.t) :
  Change.valid c doc ->
  Change.apply (Change.invert c doc) (Change.apply c doc) = doc
  /\ Change.invert (Change.invert c doc) (Change.apply c doc) = c.
Proof.
  intros Hvalid.
  destruct (valid_splits_document c doc Hvalid)
    as (before & replaced & after & -> & Hbefore & Hreplaced).
  destruct c as [from to text]. simpl in *.
  assert (Hto : to = strlen before + strlen replaced) by lia.
  subst from to. unfold Change.apply, Change.invert. simpl.
  rewrite slice_middle, !replace_middle, slice_middle.
  split; [reflexivity | f_equal].
Qed.

Lemma invert_undoes_apply_witness :
  let c := Change.mk 1 3 "XYZ" in
  Change.apply (Change.invert c "abcdef") (Change.apply c "abcdef") = "abcdef"
  /\ Change.invert (Change.invert c "abcdef") (Change.apply c "abcdef") = c.
Proof.
  cbv zeta. apply (invert_undoes_apply (Change.mk 1 3 "XYZ") "abcdef").
  unfold Change.valid, Text.length, strlen. simpl. lia.
Defined.

(** The length of the changed document. *)
Lemma apply_length (c : Change.t) (doc : Text.t) :
  Change.valid c doc ->
  Text.length (Change.apply c doc)
  = Text.length doc + strlen (Change.text c) - (Change.to c - Change.from c).
Proof.
  intros Hvalid.
  destruct (valid_splits_document c doc Hvalid)
    as (before & replaced & after & -> & Hbefore & Hreplaced).
  destruct c as [from to text]. simpl in *.
  assert (Hto : to = strlen before + strlen replaced) by lia.
  subst from to. unfold Change.apply. simpl. rewrite replace_middle.
  unfold Text.length, strlen in *. rewrite !length_append. lia.
Qed.

(** A position of the old document is mapped to a position of the new
    one. *)
Lemma mapPos_within (c : Change.t) (doc : Text.t) (pos bias : Z) :
  Change.valid c doc ->
  0 <= pos <= Text.length doc ->
  0 <= Change.mapPos c pos bias <= Text.length (Change.apply c doc).
Proof.
  intros Hvalid Hpos. rewrite (apply_length c doc Hvalid).
  destruct Hvalid as (H0 & Hft & Hlen).
  pose proof (strlen_nonneg (Change.text c)).
  unfold Change.mapPos. split_compare; lia.
Qed.

Lemma doc_after_change (c : Change.t) (tr : Transaction.t) :
  ~ degenerate c ->
  Transaction.doc (Transaction.change c tr) = Change.apply c (Transaction.doc tr).
Proof.
  intros Hnot. unfold Transaction.change.
  destruct (Z.eqb_spec (Change.from c) (Change.to c)) as [Hft | Hft]; simpl.
  - destruct (String.eqb_spec (Change.text c) "") as [Htext | Htext].
    + exfalso. apply Hnot. now split.
    + rewrite doc_is_last. simpl. apply last_last.
  - rewrite doc_is_last. simpl. apply last_last.
Qed.

(** [change] keeps the selection inside the document: when the change
    addresses the transaction's current document and every range lies
    within that document, every range of the new selection lies within
    the new document. *)
Theorem change_keeps_selection_within (c : Change.t) (tr : Transaction.t) :
  Change.valid c (Transaction.doc tr) ->
  selection_within (Transaction.selection tr)
    (Text.length (Transaction.doc tr)) ->
  selection_within (Transaction.selection (Transaction.change c tr))
    (Text.length (Transaction.doc (Transaction.change c tr))).
Proof.
  intros Hvalid Hwithin.
  destruct (change_cases c tr) as [Hsame | Hnew].
  - now rewrite Hsame.
  - assert (Hdoc : Transaction.doc (Transaction.change c tr)
                   = Change.apply c (Transaction.doc tr)).
    { rewrite Hnew, doc_is_last. simpl. apply last_last. }
    rewrite Hdoc, Hnew. simpl. unfold selection_within in *. simpl.
    apply Forall_map. eapply Forall_impl; [exact Hwithin |].
    intros r [Hfrom Hto]. simpl in *. rewrite Range_map_ends.
    unfold Range.from, Range.to in *. simpl.
    pose proof (mapPos_within c _ (Range.anchor r) 1 Hvalid ltac:(lia)).
    pose proof (mapPos_within c _ (Range.head r) 1 Hvalid ltac:(lia)).
    unfold Change.mapPos_default. lia.
Qed.

Lemma change_keeps_selection_within_witness :
  selection_within
    (Transaction.selection
       (Transaction.change (Change.mk 0 5 "hi") (Transaction.start hello_state 0)))
    (Text.length
       (Transaction.doc
          (Transaction.change (Change.mk 0 5 "hi")
             (Transaction.start hello_state 0)))).
Proof.
  apply change_keeps_selection_within.
  - unfold Change.valid, Text.length, strlen. simpl. lia.
  - unfold selection_within. simpl. apply Forall_cons. split.
    + vm_compute. split; discriminate.
    + apply Forall_nil. exact I.
Defined.

(** * Metadata and flags of a transaction *)

(** [getMeta] reads back what [setMeta] stored under the slot's name and
    what was there before under every other name.  A fresh transaction
    holds its time stamp; under any other name it reads [undefined], but
    for a slot named "constructor", where the class [Meta] shows through
    from the prototype until [setMeta] stores a value there.  [setMeta]
    touches nothing but the metadata. *)
Theorem meta_is_a_table :
  (forall tr slot value,
      Transaction.getMeta slot (Transaction.setMeta slot value tr) = value)
  /\ (forall tr slot other value,
        MetaSlot.name other <> MetaSlot.name slot ->
        Transaction.getMeta other (Transaction.setMeta slot value tr)
        = Transaction.getMeta other tr)
  /\ (forall state time,
        Transaction.getMeta MetaSlot.time (Transaction.start state time)
        = number time)
  /\ (forall state time slot,
        MetaSlot.name slot <> MetaSlot.name MetaSlot.time ->
        Transaction.getMeta slot (Transaction.start state time)
        = if String.eqb (MetaSlot.name slot) "constructor"
          then Meta.class else undefined)
  /\ (forall tr slot value,
        let tr' := Transaction.setMeta slot value tr in
        Transaction.startState tr' = Transaction.startState tr
        /\ Transaction.changes tr' = Transaction.changes tr
        /\ Transaction.docs tr' = Transaction.docs tr
        /\ Transaction.selection tr' = Transaction.selection tr
        /\ Transaction.flags tr' = Transaction.flags tr).
Proof.
  unfold Transaction.getMeta, Transaction.setMeta, Transaction.start, Meta.get,
    Meta.new.
  cbn [Transaction.meta].
  split; [| split; [| split; [| split]]].
  - intros tr slot value. now rewrite lookup_insert_eq.
  - intros tr slot other value Hne. now rewrite lookup_insert_ne.
  - intros state time. now rewrite lookup_insert_eq.
  - intros state time slot Hne. now rewrite lookup_insert_ne, lookup_empty.
  - intros tr slot value. repeat split.
Qed.

Lemma lor_land_absorb (a b : Z) : Z.lor (Z.land a b) b = b.
Proof.
  apply Z.bits_inj'. intros n Hn.
  rewrite Z.lor_spec, Z.land_spec. destruct (Z.testbit a n), (Z.testbit b n);
    reflexivity.
Qed.

Lemma flag_scroll_raised (flags : Z) :
  Z.land (Z.lor flags Transaction.FLAG_SCROLL_INTO_VIEW)
    Transaction.FLAG_SCROLL_INTO_VIEW = 2.
Proof.
  unfold Transaction.FLAG_SCROLL_INTO_VIEW.
  rewrite Z.land_lor_distr_l. change (Z.land 2 2) with 2.
  apply lor_land_absorb.
Qed.

Lemma flag_selection_keeps_scroll_bit (flags : Z) :
  Z.land (Z.lor flags Transaction.FLAG_SELECTION_SET)
    Transaction.FLAG_SCROLL_INTO_VIEW
  = Z.land flags Transaction.FLAG_SCROLL_INTO_VIEW.
Proof.
  unfold Transaction.FLAG_SCROLL_INTO_VIEW, Transaction.FLAG_SELECTION_SET.
  rewrite Z.land_lor_distr_l. change (Z.land 1 2) with 0.
  apply Z.lor_0_r.
Qed.

(** The two flags are independent bits: a fresh transaction has neither;
    [setSelection] raises "selection set" and [scrollIntoView] raises
    "scrolled into view", each leaving the other as it was; [setMeta] and
    [change] leave both as they were. *)
Theorem flags_are_independent :
  (forall state time,
      Transaction.selectionSet (Transaction.start state time) = false
      /\ Transaction.scrolledIntoView (Transaction.start state time) = false)
  /\ (forall tr sel,
        Transaction.selectionSet (Transaction.setSelection sel tr) = true
        /\ Transaction.scrolledIntoView (Transaction.setSelection sel tr)
           = Transaction.scrolledIntoView tr)
  /\ (forall tr,
        Transaction.scrolledIntoView (Transaction.scrollIntoView tr) = true
        /\ Transaction.selectionSet (Transaction.scrollIntoView tr)
           = Transaction.selectionSet tr)
  /\ (forall tr slot value,
        Transaction.selectionSet (Transaction.setMeta slot value tr)
        = Transaction.selectionSet tr
        /\ Transaction.scrolledIntoView (Transaction.setMeta slot value tr)
           = Transaction.scrolledIntoView tr)
  /\ (forall tr c,
        Transaction.selectionSet (Transaction.change c tr)
        = Transaction.selectionSet tr
        /\ Transaction.scrolledIntoView (Transaction.change c tr)
           = Transaction.scrolledIntoView tr).
Proof.
  unfold Transaction.selectionSet, Transaction.scrolledIntoView.
  split; [| split; [| split; [| split]]].
  - intros state time. split; reflexivity.
  - intros tr sel. simpl.
    now rewrite flag_selection_raised, flag_selection_keeps_scroll_bit.
  - intros tr. simpl.
    now rewrite flag_scroll_raised, flag_scroll_keeps_selection_bit.
  - intros tr slot value. split; reflexivity.
  - intros tr c. destruct (change_cases c tr) as [-> | ->]; split; reflexivity.
Qed.

(** * Changes recorded by a transaction *)

Lemma change_cases_strong (c : Change.t) (tr : Transaction.t) :
  (degenerate c /\ Transaction.change c tr = tr)
  \/ (~ degenerate c
      /\ Transaction.change c tr
         = Transaction.mk (Transaction.startState tr)
             (Transaction.changes tr ++ [c])
             (Transaction.docs tr ++ [Change.apply c (Transaction.doc tr)])
             (Selection.map (Transaction.selection tr) c)
             (Transaction.meta tr) (Transaction.flags tr)).
Proof.
  unfold Transaction.change, degenerate.
  destruct (Z.eqb_spec (Change.from c) (Change.to c)) as [Hft | Hft];
    destruct (String.eqb_spec (Change.text c) "") as [Htext | Htext];
    simpl; [left | right | right | right]; split; auto; intros [? ?];
    contradiction.
Qed.

(** No transaction built through the interface records a change that
    replaces nothing by nothing: [change] drops those. *)
Theorem no_degenerate_change_recorded (tr : Transaction.t) :
  Transaction.reachable tr ->
  Forall (fun c => ~ degenerate c) (Transaction.changes tr).
Proof.
  revert tr.
  apply (reachable_preserves
           (fun tr => Forall (fun c => ~ degenerate c) (Transaction.changes tr)));
    simpl; auto.
  intros tr' c Hall.
  destruct (change_cases_strong c tr') as [[_ ->] | [Hnot ->]];
    [assumption | simpl].
  apply Forall_app. split; [assumption |].
  apply Forall_cons. split; [assumption | now apply Forall_nil].
Qed.

Lemma no_degenerate_change_recorded_witness :
  Forall (fun c => ~ degenerate c)
    (Transaction.changes
       (Transaction.replace 2 2 "" (Transaction.replace 0 5 "hi"
          (Transaction.start hello_state 0)))).
Proof.
  apply no_degenerate_change_recorded.
  exists 0%nat, hello_state, 0.
  do 2 apply Transaction.builds_replace. apply Transaction.builds_refl.
Defined.

Lemma last_docs_of (cs : list Change.t) :
  forall d,
    List.last (Transaction.docs_of d cs) d
    = fold_left (fun doc c => Change.apply c doc) cs d.
Proof.
  induction cs as [| c cs IH]; intros d; [reflexivity |].
  change (Transaction.docs_of d (c :: cs))
    with (Change.apply c d :: Transaction.docs_of (Change.apply c d) cs).
  rewrite last_cons_default. simpl. apply IH.
Qed.

(** The current document of a transaction built through the interface is
    the start state's document with the recorded changes applied in
    order. *)
Theorem doc_is_changes_applied (tr : Transaction.t) :
  Transaction.reachable tr ->
  Transaction.doc tr
  = fold_left (fun doc c => Change.apply c doc) (Transaction.changes tr)
      (EditorState.doc (Transaction.startState tr)).
Proof.
  intros Hreach.
  pose proof (docs_follow_changes_reachable tr Hreach) as Hdocs.
  unfold Transaction.docs_follow_changes in Hdocs.
  rewrite doc_is_last, Hdocs. apply last_docs_of.
Qed.

Lemma doc_is_changes_applied_witness :
  Transaction.doc
    (Transaction.replace 0 1 "J" (Transaction.replace 0 5 "hi"
       (Transaction.start hello_state 0)))
  = Change.apply (Change.mk 0 1 "J") (Change.apply (Change.mk 0 5 "hi") "hello").
Proof.
  apply (doc_is_changes_applied
           (Transaction.replace 0 1 "J" (Transaction.replace 0 5 "hi"
              (Transaction.start hello_state 0)))).
  exists 0%nat, hello_state, 0.
  do 2 apply Transaction.builds_replace. apply Transaction.builds_refl.
Defined.

(** As long as [setSelection] was never called, the selection of a
    transaction built through the interface is the start state's
    selection mapped through the recorded changes in order. *)
Theorem selection_is_start_selection_mapped (tr : Transaction.t) :
  Transaction.reachable tr ->
  Transaction.selectionSet tr = false ->
  Transaction.selection tr
  = fold_left Selection.map (Transaction.changes tr)
      (EditorState.selection (Transaction.startState tr)).
Proof.
  intros Hreach Hflag.
  pose proof (selection_follows_reachable tr Hreach) as Hfollows.
  unfold Transaction.selection_follows in Hfollows. now apply Hfollows.
Qed.

Lemma selection_is_start_selection_mapped_witness :
  Transaction.selection
    (Transaction.scrollIntoView (Transaction.replace 0 5 "hi"
       (Transaction.start hello_state 0)))
  = Selection.map (Selection.mk [Range.cursor 5]) (Change.mk 0 5 "hi").
Proof.
  apply (selection_is_start_selection_mapped
           (Transaction.scrollIntoView (Transaction.replace 0 5 "hi"
              (Transaction.start hello_state 0)))).
  - exists 0%nat, hello_state, 0.
    apply Transaction.builds_scrollIntoView, Transaction.builds_replace,
      Transaction.builds_refl.
  - reflexivity.
Defined.

(** * Replacing the selection *)

Lemma replaceSelection_fold (text : string) (start : nat) (ranges : list Range.t) :
  text <> "" ->
  forall acc,
    exists added,
      Transaction.changes
        (fold_left
           (fun acc range =>
              Transaction.change
                (Change.mk (Range.from (Transaction.remap start acc range))
                   (Range.to (Transaction.remap start acc range)) text)
                acc)
           ranges acc)
      = Transaction.changes acc ++ added
      /\ List.length added = List.length ranges
      /\ Forall (fun c => Change.text c = text) added.
Proof.
  intros Htext. induction ranges as [| range ranges IH]; intros acc; simpl.
  - exists []. rewrite app_nil_r. repeat split. apply Forall_nil. exact I.
  - set (c := Change.mk (Range.from (Transaction.remap start acc range))
                (Range.to (Transaction.remap start acc range)) text).
    destruct (IH (Transaction.change c acc)) as (added & Hchanges & Hlen & Hall).
    destruct (change_cases_strong c acc) as [[[_ Hdeg] _] | [_ Hnew]];
      [contradiction |].
    exists (c :: added). rewrite Hchanges, Hnew. simpl.
    rewrite <- app_assoc. simpl. repeat split; [lia |].
    apply Forall_cons. split; [reflexivity | assumption].
Qed.

(** [replaceSelection(text)] with a non-empty text records exactly one
    change per range of the selection, each carrying that text, after the
    changes the transaction already had. *)
Theorem replaceSelection_one_change_per_range (text : string) (tr : Transaction.t) :
  text <> "" ->
  exists added,
    Transaction.changes (Transaction.replaceSelection text tr)
    = Transaction.changes tr ++ added
    /\ List.length added
       = List.length (Selection.ranges (Transaction.selection tr))
    /\ Forall (fun c => Change.text c = text) added.
Proof.
  intros Htext. unfold Transaction.replaceSelection, Transaction.reduceRanges.
  rewrite reduce_loop_fold by (simpl; lia). rewrite drop_0.
  apply (replaceSelection_fold text _ _ Htext tr).
Qed.

Lemma replaceSelection_one_change_per_range_witness :
  exists added,
    Transaction.changes
      (Transaction.replaceSelection "X" (Transaction.start hello_state 0))
    = [] ++ added
    /\ List.length added = 1%nat
    /\ Forall (fun c => Change.text c = "X") added.
Proof.
  apply (replaceSelection_one_change_per_range "X"
           (Transaction.start hello_state 0)).
  discriminate.
Defined.

(** * The state [apply] returns *)

(** [apply] commits the transaction's document and selection under the
    start state's configuration; the new state has a slot for exactly the
    configured fields, so any other field reads [undefined]; and when the
    configured keys are distinct, each field's slot holds what its call
    returned. *)
Theorem apply_commits (tr : Transaction.t) :
  let conf := EditorState.config (Transaction.startState tr) in
  let keys := List.map StateField.key (Configuration.fields conf) in
  EditorState.doc (Transaction.apply tr) = Transaction.doc tr
  /\ EditorState.selection (Transaction.apply tr) = Transaction.selection tr
  /\ EditorState.config (Transaction.apply tr) = conf
  /\ dom (EditorState.slots (Transaction.apply tr)) = list_to_set keys
  /\ (forall field,
        StateField.key field ∉ keys ->
        EditorState.getField (Transaction.apply tr) field = undefined)
  /\ (NoDup keys ->
      forall c,
        c ∈ Transaction.apply_calls tr ->
        EditorState.getField (Transaction.apply tr) (Transaction.callee c)
        = Transaction.call_result c).
Proof.
  cbv zeta. unfold Transaction.apply, Transaction.apply_calls.
  set (conf := EditorState.config (Transaction.startState tr)).
  set (fields := Configuration.fields conf).
  set (fresh := EditorState.new conf (Transaction.doc tr)
                  (Some (Transaction.selection tr))).
  destruct (apply_loop_frame tr fields fresh) as (Hc & Hd & Hs).
  split; [exact Hd |]. split; [exact Hs |]. split; [exact Hc |].
  split; [| split].
  - rewrite apply_loop_filled. simpl.
    rewrite dom_empty_L. now rewrite (left_id_L ∅ (∪)).
  - intros field Hnot. unfold EditorState.getField, property.
    now rewrite (apply_loop_untouched tr fields _ Hnot).
  - intros Hnodup c Hin.
    apply list_elem_of_lookup in Hin as [i Hi].
    destruct (calls_loop_lookup tr fields fresh i c Hi) as (Hfield & Htr & Hvalue).
    pose proof (calls_loop_newState tr fields fresh i c Hi) as Hnew.
    pose proof (take_drop_middle _ _ _ Hfield) as Hsplit.
    assert (Hlast : StateField.key (Transaction.callee c)
                    ∉ List.map StateField.key (drop (S i) fields)).
    { rewrite <- Hsplit, map_app in Hnodup.
      apply NoDup_app in Hnodup as (_ & _ & Hnodup).
      simpl in Hnodup. now apply NoDup_cons in Hnodup as [? _]. }
    unfold EditorState.getField, property. rewrite <- Hsplit at 1.
    rewrite (apply_loop_stored tr _ _ _ Hlast). simpl.
    unfold Transaction.call_result. now rewrite Htr, Hvalue, Hnew.
Qed.

(** * What a constructed configuration and a created state hold *)

Lemma new_returns (plugins : list Plugin.t) (conf : Configuration.t) :
  Configuration.new plugins = Ok conf ->
  conf = Configuration.mk plugins (omap Plugin.stateField plugins)
  /\ NoDup (List.map StateField.key (omap Plugin.stateField plugins)).
Proof.
  intros Hnew.
  destruct (decide (NoDup (List.map StateField.key
                             (omap Plugin.stateField plugins)))) as [H | H].
  - rewrite (new_fields plugins H) in Hnew. inversion Hnew. auto.
  - destruct (collect_duplicate plugins [] (@NoDup_nil_2 string) H)
      as (field & _ & Hthrow).
    unfold Configuration.new in Hnew. rewrite Hthrow in Hnew. discriminate.
Qed.

(** A configuration that the constructor returns keeps the plugin list
    and lists the plugins' fields in plugin order, plugins without a field
    left out, and no key occurs twice among them. *)
Theorem configuration_lists_fields_in_order
    (plugins : list Plugin.t) (conf : Configuration.t) :
  Configuration.new plugins = Ok conf ->
  Configuration.plugins conf = plugins
  /\ Configuration.fields conf = omap Plugin.stateField plugins
  /\ NoDup (List.map StateField.key (Configuration.fields conf)).
Proof.
  intros Hnew. destruct (new_returns plugins conf Hnew) as [-> Hnodup].
  simpl. auto.
Qed.

Lemma configuration_lists_fields_in_order_witness :
  let plugins :=
    [Plugin.new (Plugin.mkSpec (Some counter_field) undefined undefined);
     Plugin.new (Plugin.mkSpec None undefined undefined);
     Plugin.new (Plugin.mkSpec (Some mirror_field) undefined undefined)] in
  Configuration.fields (Configuration.mk plugins [counter_field; mirror_field])
  = omap Plugin.stateField plugins.
Proof.
  cbv zeta.
  refine (proj1 (proj2 (configuration_lists_fields_in_order _ _ _))).
  reflexivity.
Defined.

Section InitFields.

Import EditorState.

Lemma init_fields_frame (fields : list StateField.t) :
  forall state,
    config (init_fields fields state) = config state
    /\ doc (init_fields fields state) = doc state
    /\ selection (init_fields fields state) = selection state.
Proof.
  induction fields as [| field rest IH]; intros state; simpl; [auto |].
  destruct (IH (set state (StateField.key field)
                  (StateField.init field (view state)))) as (Hc & Hd & Hs).
  now rewrite Hc, Hd, Hs.
Qed.

Lemma init_fields_app (fields rest : list StateField.t) :
  forall state,
    init_fields (fields ++ rest) state
    = init_fields rest (init_fields fields state).
Proof.
  induction fields as [| field fields IH]; intros state; simpl; auto.
Qed.

Lemma init_fields_filled (fields : list StateField.t) :
  forall state,
    dom (slots (init_fields fields state))
    = dom (slots state) ∪ list_to_set (List.map StateField.key fields).
Proof.
  induction fields as [| field rest IH]; intros state; simpl.
  - now rewrite (right_id_L ∅ (∪)).
  - rewrite IH. simpl. rewrite dom_insert_L.
    now rewrite (comm_L (∪) {[StateField.key field]}), (assoc_L (∪)).
Qed.

Lemma init_fields_untouched (fields : list StateField.t) (key : string) :
  key ∉ List.map StateField.key fields ->
  forall state,
    slots (init_fields fields state) !! key = slots state !! key.
Proof.
  induction fields as [| field rest IH]; intros Hnot state; simpl.
  - reflexivity.
  - simpl in Hnot. apply not_elem_of_cons in Hnot as [Hne Hrest].
    rewrite (IH Hrest). simpl. now apply lookup_insert_ne.
Qed.

Lemma init_fields_stored (before after : list StateField.t) (field : StateField.t) :
  StateField.key field ∉ List.map StateField.key after ->
  forall state,
    slots (init_fields (before ++ field :: after) state) !! StateField.key field
    = Some (StateField.init field (view (init_fields before state))).
Proof.
  intros Hnot state. rewrite init_fields_app. simpl.
  rewrite (init_fields_untouched after _ Hnot). simpl.
  apply lookup_insert_eq.
Qed.

End InitFields.

(** A state that [create] returns has the document and selection asked
    for (the empty document and one cursor at 0 by default), one slot per
    field of the plugins and no other, so that a field that is not
    configured reads [undefined]; the [i]-th field was initialised from
    the state that already held the fields before it. *)
Theorem create_initialises_fields
    (cfg : EditorState.editorStateConfig) (state : EditorState.t) :
  EditorState.create cfg = Ok state ->
  let plugins := default [] (EditorState.cfg_plugins cfg) in
  let fields := omap Plugin.stateField plugins in
  let doc :=
    match EditorState.cfg_doc cfg with
    | Some (EditorState.fromText d) => d
    | Some (EditorState.fromString s) => s
    | None => ""
    end in
  let selection := default Selection.default (EditorState.cfg_selection cfg) in
  let fresh :=
    EditorState.mk (Configuration.mk plugins fields) doc selection ∅ in
  EditorState.config state = Configuration.mk plugins fields
  /\ EditorState.doc state = doc
  /\ EditorState.selection state = selection
  /\ dom (EditorState.slots state) = list_to_set (List.map StateField.key fields)
  /\ (forall field,
        StateField.key field ∉ List.map StateField.key fields ->
        EditorState.getField state field = undefined)
  /\ (forall (i : nat) field,
        fields !! i = Some field ->
        EditorState.getField state field
        = StateField.init field
            (EditorState.view (EditorState.init_fields (take i fields) fresh))).
Proof.
  intros Hcreate. cbv zeta. unfold EditorState.create in Hcreate.
  destruct (Configuration.new (default [] (EditorState.cfg_plugins cfg)))
    as [conf | e] eqn:Hnew; [| discriminate].
  destruct (new_returns _ _ Hnew) as [-> Hnodup].
  simpl in Hcreate. injection Hcreate as <-.
  set (plugins := default [] (EditorState.cfg_plugins cfg)) in *.
  set (fields := omap Plugin.stateField plugins) in *.
  set (fresh := EditorState.mk (Configuration.mk plugins fields)
                  (match EditorState.cfg_doc cfg with
                   | Some (EditorState.fromText d) => d
                   | Some (EditorState.fromString s) => s
                   | None => ""
                   end)
                  (default Selection.default (EditorState.cfg_selection cfg))
                  ∅).
  assert (Hfresh : EditorState.new (Configuration.mk plugins fields)
                     (match EditorState.cfg_doc cfg with
                      | Some (EditorState.fromText d) => d
                      | Some (EditorState.fromString s) => Text.create s
                      | None => Text.create ""
                      end)
                     (Some (default Selection.default
                              (EditorState.cfg_selection cfg)))
                   = fresh).
  { unfold fresh, EditorState.new, Text.create. reflexivity. }
  rewrite Hfresh.
  destruct (init_fields_frame fields fresh) as (Hc & Hd & Hs).
  rewrite Hc, Hd, Hs.
  split; [reflexivity |]. split; [reflexivity |]. split; [reflexivity |].
  split; [| split].
  - rewrite init_fields_filled. simpl.
    rewrite dom_empty_L. now rewrite (left_id_L ∅ (∪)).
  - intros field Hnot. unfold EditorState.getField, property.
    now rewrite (init_fields_untouched fields _ Hnot).
  - intros i field Hi.
    pose proof (take_drop_middle _ _ _ Hi) as Hsplit.
    assert (Hlast : StateField.key field
                    ∉ List.map StateField.key (drop (S i) fields)).
    { rewrite <- Hsplit, map_app in Hnodup.
      apply NoDup_app in Hnodup as (_ & _ & Hnodup).
      simpl in Hnodup. now apply NoDup_cons in Hnodup as [? _]. }
    unfold EditorState.getField, property. rewrite <- Hsplit at 1.
    now rewrite (init_fields_stored _ _ _ Hlast).
Qed.

Lemma create_initialises_fields_witness :
  EditorState.doc two_fields_state = "ab"
  /\ EditorState.selection two_fields_state = Selection.default
  /\ EditorState.getField two_fields_state counter_field = number 0.
Proof.
  destruct (create_initialises_fields two_fields two_fields_state
              two_fields_created) as (_ & Hdoc & Hsel & _ & _ & Hinit).
  split; [exact Hdoc |]. split; [exact Hsel |].
  exact (Hinit 0%nat counter_field eq_refl).
Defined.

(** * Finding the plugin of a field *)

Lemma find_plugin_first (plugins : list Plugin.t) (field : StateField.t) :
  match EditorState.find_plugin plugins field with
  | Some plugin =>
      exists before after found,
        plugins = before ++ plugin :: after
        /\ Plugin.stateField plugin = Some found
        /\ StateField.same found field = true
        /\ forall q g, q ∈ before -> Plugin.stateField q = Some g ->
                       StateField.same g field = false
  | None =>
      forall q g, q ∈ plugins -> Plugin.stateField q = Some g ->
                  StateField.same g field = false
  end.
Proof.
  induction plugins as [| plugin rest IH]; simpl.
  - intros q g Hq. inversion Hq.
  - destruct (Plugin.stateField plugin) as [f |] eqn:Hf.
    + destruct (StateField.same f field) eqn:Hsame.
      * exists [], rest, f. repeat split; auto. intros q g Hq. inversion Hq.
      * destruct (EditorState.find_plugin rest field) as [p |].
        -- destruct IH as (before & after & found & -> & Hp & Hfound & Hnone).
           exists (plugin :: before), after, found. repeat split; auto.
           intros q g Hq Hg. apply elem_of_cons in Hq as [-> | Hq];
             [congruence | eauto].
        -- intros q g Hq Hg. apply elem_of_cons in Hq as [-> | Hq];
             [congruence | eauto].
    + destruct (EditorState.find_plugin rest field) as [p |].
      * destruct IH as (before & after & found & -> & Hp & Hfound & Hnone).
        exists (plugin :: before), after, found. repeat split; auto.
        intros q g Hq Hg. apply elem_of_cons in Hq as [-> | Hq];
          [congruence | eauto].
      * intros q g Hq Hg. apply elem_of_cons in Hq as [-> | Hq];
          [congruence | eauto].
Qed.

(** [getPluginWithField] returns the first plugin of the configuration
    that carries the field, and [null] exactly when no plugin carries it;
    plugins without a field are passed over. *)
Theorem getPluginWithField_finds_first
    (state : EditorState.t) (field : StateField.t) :
  let plugins := Configuration.plugins (EditorState.config state) in
  (forall plugin,
      EditorState.getPluginWithField state field = Some plugin ->
      exists before after found,
        plugins = before ++ plugin :: after
        /\ Plugin.stateField plugin = Some found
        /\ StateField.same found field = true
        /\ forall q g, q ∈ before -> Plugin.stateField q = Some g ->
                       StateField.same g field = false)
  /\ (EditorState.getPluginWithField state field = None <->
      forall q g, q ∈ plugins -> Plugin.stateField q = Some g ->
                  StateField.same g field = false).
Proof.
  cbv zeta. unfold EditorState.getPluginWithField.
  pose proof (find_plugin_first
                (Configuration.plugins (EditorState.config state)) field) as H.
  destruct (EditorState.find_plugin _ field) as [p |].
  - split.
    + intros plugin Heq. inversion Heq. subst. exact H.
    + split; [discriminate |]. intros Hnone.
      destruct H as (before & after & found & Hsplit & Hp & Hfound & _).
      rewrite (Hnone p found) in Hfound; [discriminate | | assumption].
      rewrite Hsplit. apply elem_of_app. right. apply list_elem_of_here.
  - split; [discriminate |]. split; auto.
Qed.

(** * Lines of the facet-era state *)

Lemma split_default_nonempty (text : string) :
  forall line, Facets.split_default text line <> [].
Proof.
  induction text as [| c rest IH]; intros line; simpl; [discriminate |].
  destruct (Ascii.eqb c "013"%char).
  - destruct rest as [| c' rest']; [discriminate |].
    destruct (Ascii.eqb c' "010"%char); discriminate.
  - destruct (Ascii.eqb c "010"%char); [discriminate | apply IH].
Qed.

Lemma concat_cons_nonempty (sep line : string) (rest : list string) :
  rest <> [] ->
  String.concat sep (line :: rest) = line +:+ sep +:+ String.concat sep rest.
Proof. destruct rest; [contradiction | reflexivity]. Qed.

Lemma append_single (line : string) (c : ascii) (rest : string) :
  (line +:+ String c "") +:+ rest = line +:+ String c rest.
Proof. now rewrite append_assoc. Qed.

(** Splitting at line breaks and joining with a line feed gives back the
    text after the line read so far, when no carriage return occurs. *)
Lemma join_split_default (text : string) :
  forall line,
    Facets.no_carriage_return text = true ->
    String.concat (String "010"%char "") (Facets.split_default text line)
    = line +:+ text.
Proof.
  induction text as [| c rest IH]; intros line Hclean; simpl in *.
  - now rewrite append_empty.
  - apply andb_true_iff in Hclean as [Hc Hrest].
    apply negb_true_iff in Hc. rewrite Hc.
    destruct (Ascii.eqb_spec c "010"%char) as [-> | Hlf].
    + rewrite concat_cons_nonempty by apply split_default_nonempty.
      now rewrite (IH "" Hrest), append_nil.
    + rewrite (IH _ Hrest). apply append_single.
Qed.

Section FacetLines.

Context {Configuration DynamicSlot SlotStatus Extension Transaction : Type}.
Variable split : string -> string -> list string.
Variable facet_lineSeparator :
  Facets.t Configuration SlotStatus Transaction -> option string.

(** With no line separator configured (the facet is [undefined] or the
    empty string), [joinLines] undoes [splitLines] on every text without
    a carriage return. *)
Theorem joinLines_undoes_splitLines
    (state : Facets.t Configuration SlotStatus Transaction) (text : string) :
  Facets.configured_separator facet_lineSeparator state = None ->
  Facets.no_carriage_return text = true ->
  Facets.joinLines facet_lineSeparator state
    (Facets.splitLines split facet_lineSeparator state text)
  = text.
Proof.
  intros Hsep Hclean. unfold Facets.joinLines, Facets.splitLines.
  rewrite Hsep. simpl. now rewrite join_split_default.
Qed.

Variable dynamicSlots : Configuration -> list DynamicSlot.
Variable Uninitialized : SlotStatus.
Variable resolve : Extension -> result Configuration.
Variable noExtensions : Extension.
Variable lineSeparator : Configuration -> option string.
Variable allowMultipleSelections : Configuration -> bool.
Variable initState :
  Facets.t Configuration SlotStatus Transaction -> option Transaction ->
  result (Facets.t Configuration SlotStatus Transaction).
Variable selection_fromJSON : any -> result Selection.t.

#[local] Abbreviation fromJSON :=
  (Facets.fromJSON dynamicSlots Uninitialized resolve noExtensions
     lineSeparator allowMultipleSelections split initState selection_fromJSON).

#[local] Abbreviation create :=
  (Facets.create dynamicSlots Uninitialized resolve noExtensions
     lineSeparator allowMultipleSelections split initState).

Lemma string_doc_is_truthy (json : any) (doc : string) :
  get_property json "doc" = str doc -> truthy json = true.
Proof. destruct json; simpl; try discriminate. reflexivity. Qed.

(** [fromJSON] checks the parsed selection against the document it
    builds from the text.  For a value with a string [doc] free of
    carriage returns, under a configuration with no line separator: the
    ranges kept are all parsed ranges when multiple selections are
    allowed and the first one alone otherwise; if one of them ends past
    the text, [fromJSON] throws "Selection points outside of document"
    and [initState] is not reached; if all of them end within it,
    [fromJSON] hands [initState] a state whose document is the text and
    whose selection is the ranges kept.  A range that is dropped is not
    checked. *)
Theorem fromJSON_checks_selection (json : any)
    (config : Facets.editorStateConfig Extension)
    (configuration : Configuration) (doc : string)
    (primary : Range.t) (others : list Range.t) :
  get_property json "doc" = str doc ->
  selection_fromJSON (get_property json "selection")
  = Ok (Selection.mk (primary :: others)) ->
  resolve (default noExtensions (Facets.cfg_extensions Extension config))
  = Ok configuration ->
  lineSeparator configuration = None ->
  Facets.no_carriage_return doc = true ->
  let kept :=
    if allowMultipleSelections configuration then primary :: others
    else [primary] in
  (Exists (fun range => Range.to range > strlen doc) kept ->
   fromJSON json config
   = Throw (RangeError "Selection points outside of document"))
  /\ (Forall (fun range => Range.to range <= strlen doc) kept ->
      fromJSON json config
      = initState
          (Facets.mk configuration doc (Selection.mk kept)
             (List.map (fun _ => null) (dynamicSlots configuration))
             (List.map (fun _ => Uninitialized) (dynamicSlots configuration))
             None)
          None).
Proof.
  intros Hdoc Hsel Hresolve Hsep Hclean. cbv zeta.
  unfold Facets.fromJSON.
  rewrite (string_doc_is_truthy json doc Hdoc), Hdoc. simpl.
  rewrite Hsel. simpl.
  unfold Facets.create. simpl. rewrite Hresolve. simpl.
  unfold Facets.split_doc. rewrite Hsep.
  unfold Facets.Text_of. rewrite (join_split_default doc "" Hclean), append_nil.
  unfold Facets.new, Facets.asSingle.
  destruct (allowMultipleSelections configuration);
    cbn [negb Selection.ranges];
    try change (take 1 (primary :: others)) with [primary];
    split; intros Hkept.
  - now rewrite (check_ranges_outside (primary :: others) doc Hkept).
  - now rewrite (check_ranges_fits (primary :: others) doc Hkept).
  - now rewrite (check_ranges_outside [primary] doc Hkept).
  - now rewrite (check_ranges_fits [primary] doc Hkept).
Qed.

End FacetLines.

Lemma fromJSON_checks_selection_witness :
  let json := object [("doc", str "ab"); ("selection", null)] in
  let parsed := Selection.mk [Range.mk 0 1; Range.mk 0 5] in
  Facets.fromJSON (Configuration := unit) (DynamicSlot := unit)
    (SlotStatus := unit) (Extension := unit) (Transaction := unit)
    (fun _ => []) tt (fun _ => Ok tt) tt (fun _ => None) (fun _ => false)
    (fun _ _ => []) (fun state _ => Ok state) (fun _ => Ok parsed)
    json (Facets.mkConfig None None None)
  = Ok (Facets.mk tt "ab" (Selection.mk [Range.mk 0 1]) [] [] None).
Proof.
  cbv zeta.
  refine (proj2 (fromJSON_checks_selection (fun _ _ => []) (fun _ => [])
                   tt (fun _ => Ok tt) tt (fun _ => None) (fun _ => false)
                   (fun state _ => Ok state)
                   (fun _ => Ok (Selection.mk [Range.mk 0 1; Range.mk 0 5]))
                   (object [("doc", str "ab"); ("selection", null)])
                   (Facets.mkConfig None None None)
                   tt "ab" (Range.mk 0 1) [Range.mk 0 5]
                   eq_refl eq_refl eq_refl eq_refl eq_refl) _).
  simpl. apply Forall_cons. split; [| now apply Forall_nil].
  vm_compute. discriminate.
Defined.

Lemma joinLines_undoes_splitLines_witness :
  let state : Facets.t unit unit unit :=
    Facets.mk tt "" Selection.default [] [] None in
  let text := "a" +:+ String "010"%char "b" in
  Facets.joinLines (fun _ => Some "") state
    (Facets.splitLines (fun _ _ => []) (fun _ => Some "") state text)
  = text.
Proof.
  cbv zeta.
  apply (joinLines_undoes_splitLines (fun _ _ => []) (fun _ => Some "")
           (Facets.mk tt "" Selection.default [] [] None));
    reflexivity.
Defined.

(** * The first free name *)

Lemma unique_from_first_free (prefix : string) (names : gmap string string) :
  forall fuel i,
    (forall j, (j < i)%nat -> is_Some (names !! candidate prefix j)) ->
    (i + fuel = size names)%nat ->
    exists k,
      (unique_from fuel i prefix names).1 = candidate prefix k
      /\ names !! candidate prefix k = None
      /\ forall j, (j < k)%nat -> is_Some (names !! candidate prefix j).
Proof.
  induction fuel as [| fuel IH]; intros i Htaken Hsize; simpl.
  - destruct (names !! candidate prefix i) eqn:Hi; [| now exists i].
    exfalso.
    assert (Hbound : (S i <= size names)%nat); [| lia].
    apply (taken_candidates_bound prefix). intros j Hj.
    destruct (decide (j = i)) as [-> | Hne]; [now rewrite Hi |].
    apply Htaken. lia.
  - destruct (names !! candidate prefix i) eqn:Hi; [| now exists i].
    apply IH; [| lia]. intros j Hj.
    destruct (decide (j = i)) as [-> | Hne]; [now rewrite Hi |].
    apply Htaken. lia.
Qed.

(** [unique] hands out the first candidate that is free: [prefix] itself
    when it is, else [prefix_1], [prefix_2], ... in turn; all candidates
    before the one returned are registered. *)
Theorem unique_picks_first_free (prefix : string) (names : gmap string string) :
  exists k,
    (unique prefix names).1 = candidate prefix k
    /\ names !! candidate prefix k = None
    /\ (forall j, (j < k)%nat -> is_Some (names !! candidate prefix j))
    /\ (names !! prefix = None -> (unique prefix names).1 = prefix).
Proof.
  unfold unique.
  destruct (unique_from_first_free prefix names (size names) 0)
    as (k & Hname & Hfree & Htaken); [intros j Hj; lia | reflexivity |].
  exists k. repeat split; try assumption.
  intros Hprefix. rewrite Hname.
  destruct k as [| k]; [apply append_empty |].
  destruct (Htaken 0%nat ltac:(lia)) as [v Hv].
  unfold candidate in Hv. rewrite append_empty in Hv. congruence.
Qed.

Lemma insertion_round_trip_everywhere_witness :
  Change.mapPos_default (Change.invert (Change.mk 3 3 "xy") "abcdef")
    (Change.mapPos_default (Change.mk 3 3 "xy") 3)
  = 3.
Proof.
  apply (insertion_round_trip_everywhere (Change.mk 3 3 "xy") "abcdef" 3).
  reflexivity.
Defined.

Lemma deletion_inside_not_restored_witness :
  Change.mapPos_default (Change.invert (Change.mk 1 4 "") "abcdef")
    (Change.mapPos_default (Change.mk 1 4 "") 2)
  = 4.
Proof.
  apply (deletion_inside_not_restored (Change.mk 1 4 "") "abcdef" 2).
  - unfold Change.valid, Text.length, strlen. simpl. lia.
  - reflexivity.
  - simpl. lia.
Defined.

(** * What makes [create] fail *)

